(** * add_noise.py: the noisy, rebinned quasar data set

    A shallow embedding of [paper/scripts/add_noise.py] and the properties
    of its wavelength grid builder, noise injector, common-grid rebinner and
    renormalizer.

    Numbers.  numpy's float64 arrays are idealised as exact numbers: arrays
    of rationals ([Q], executable) for the code that only adds, multiplies,
    divides, compares and floors, and real numbers ([R]) for [get_wave],
    which needs [log10] and [10 ** x].  Rounding is therefore not modelled,
    and neither are [inf] and [nan]: where a scalar that steers the run would
    leave the rationals (a zero grid step, a zero or missing median) the
    model stops with [NonFinite], which is not a Python exception but the
    border of the model.

    Effects.  Python exceptions are the [Raise] results of [result].  The
    rebinner overwrites one of its argument arrays, so it runs on a store of
    arrays addressed by location; the generator of [add_noise] is threaded
    as explicit state. *)

From Stdlib Require Import List ZArith QArith Qround Qabs Bool Lia Psatz.
From Stdlib Require Import Reals.
Import ListNotations.

(** ** Python values and results *)

Module Py.

Inductive exn : Set :=
| IndexError
| ValueError
| TypeError
| NonFinite.

Inductive result (A : Type) : Type :=
| Ok (a : A)
| Raise (e : exn).

Arguments Ok {A} a.
Arguments Raise {A} e.

Definition bind {A B : Type} (r : result A) (k : A -> result B) : result B :=
  match r with
  | Ok a => k a
  | Raise e => Raise e
  end.

Notation "x <- r ;; k" := (bind r (fun x => k))
  (at level 61, r at next level, right associativity).

(** A one-dimensional numpy array: float64 or bool. *)
Inductive ndarray : Type :=
| FloatArr (xs : list Q)
| BoolArr (bs : list bool).

(** A tuple of arrays or [None]s, as [rebin_to_common] returns. *)
Definition pytuple : Type := list (option ndarray).

Local Open Scope Q_scope.

Definition b2q (b : bool) : Q := if b then 1 else 0.

(** How an array is read in float arithmetic ([True] is 1.0). *)
Definition as_float (a : ndarray) : list Q :=
  match a with
  | FloatArr xs => xs
  | BoolArr bs => map b2q bs
  end.

Definition Qltb (x y : Q) : bool := negb (Qle_bool y x).
Definition nonzero (x : Q) : bool := negb (Qeq_bool x 0).

(** [a[k]] for a Python int [k]: negative indices count from the end. *)
Definition getitem {A : Type} (l : list A) (k : Z) : result A :=
  let n := Z.of_nat (length l) in
  let k' := if (k <? 0)%Z then (k + n)%Z else k in
  if ((0 <=? k') && (k' <? n))%Z
  then match nth_error l (Z.to_nat k') with
       | Some x => Ok x
       | None => Raise IndexError
       end
  else Raise IndexError.

Fixpoint find_true (bs : list bool) : option nat :=
  match bs with
  | [] => None
  | b :: rest => if b then Some O else option_map S (find_true rest)
  end.

(** [np.argmax] of a boolean array: the first [True], 0 when there is none,
    [ValueError] on an empty array. *)
Definition argmax (bs : list bool) : result Z :=
  match bs with
  | [] => Raise ValueError
  | _ => Ok (Z.of_nat (match find_true bs with Some k => k | None => O end))
  end.

Definition np_any (bs : list bool) : bool := existsb (fun b => b) bs.

Fixpoint select {A : Type} (xs : list A) (m : list bool) : list A :=
  match xs, m with
  | x :: xs', b :: m' => if b then x :: select xs' m' else select xs' m'
  | _, _ => []
  end.

(** [xs[m]] for a boolean mask [m]. *)
Definition mask_index {A : Type} (xs : list A) (m : list bool) : result (list A) :=
  if (length xs =? length m)%nat then Ok (select xs m) else Raise IndexError.

Definition np_min (l : list Z) : result Z :=
  match l with
  | [] => Raise ValueError
  | x :: rest => Ok (fold_left Z.min rest x)
  end.

Definition np_max (l : list Z) : result Z :=
  match l with
  | [] => Raise ValueError
  | x :: rest => Ok (fold_left Z.max rest x)
  end.

Fixpoint zip_with {A B C : Type} (f : A -> B -> C) (xs : list A) (ys : list B) : list C :=
  match xs, ys with
  | x :: xs', y :: ys' => f x y :: zip_with f xs' ys'
  | _, _ => []
  end.

(** Elementwise binary operation on two one-dimensional arrays, with numpy's
    broadcasting of a length-one operand. *)
Definition broadcast2 {A B C : Type} (f : A -> B -> C) (xs : list A) (ys : list B)
  : result (list C) :=
  if (length xs =? length ys)%nat then Ok (zip_with f xs ys)
  else match xs, ys with
       | [x], _ => Ok (map (f x) ys)
       | _, [y] => Ok (map (fun x => f x y) xs)
       | _, _ => Raise ValueError
       end.

Fixpoint add_at (k : nat) (w : Q) (out : list Q) {struct out} : list Q :=
  match out with
  | [] => []
  | x :: rest =>
      match k with
      | O => (x + w) :: rest
      | S k' => x :: add_at k' w rest
      end
  end.

(** [np.bincount(x, weights=weights, minlength=minlength)]. *)
Definition bincount (x : list Z) (weights : list Q) (minlength : nat) : result (list Q) :=
  if existsb (fun b => (b <? 0)%Z) x then Raise ValueError
  else if negb (length x =? length weights)%nat then Raise ValueError
  else
    let n := Nat.max minlength (Z.to_nat (fold_left Z.max x (-1)%Z + 1)) in
    Ok (fold_left (fun out p => add_at (Z.to_nat (fst p)) (snd p) out)
                  (combine x weights) (repeat 0 n)).

(** [target[m] = v] for a boolean mask [m]. *)
Definition mask_assign (target : list Q) (m : list bool) (v : Q) : result (list Q) :=
  if (length target =? length m)%nat
  then Ok (zip_with (fun t (b : bool) => if b then v else t) target m)
  else Raise IndexError.

Fixpoint erode_from (prev : bool) (m : list bool) : list bool :=
  match m with
  | [] => []
  | x :: rest =>
      (prev && x && match rest with [] => true | y :: _ => y end)
        :: erode_from x rest
  end.

(** [scipy.ndimage.binary_erosion(mask, border_value=1)] in one dimension:
    the default structuring element is the bin and its two neighbours, one
    iteration, and the bins beyond both ends count as set. *)
Definition binary_erosion (m : list bool) : list bool := erode_from true m.

Definition sum (xs : list Q) : Q := fold_right Qplus 0 xs.

End Py.

(** ** The common-grid rebinner *)

Module Rebin.
Import Py.
Local Open Scope Q_scope.

(** Arrays live in a store; an argument of [rebin_to_common] is a location. *)
Definition loc : Set := nat.
Definition store : Type := loc -> ndarray.

Definition upd (s : store) (l : loc) (a : ndarray) : store :=
  fun l' => if Nat.eqb l' l then a else s l'.

(** Module-level [nbins_final] (line 282), read inside [rebin_to_common]. *)
Definition nbins_final : Z := 11400%Z.

Definition in_grid (b : Z) : bool := ((b >=? 0) && (b <? nbins_final))%Z.

(** What lines 84-134 hand on to the accumulation. *)
Record fractions : Type := {
  percent_low : Q;
  percent_high : Q;
  bin_low : list Z;
  good_low : list bool;
  bin_high : list Z;
  good_high : list bool
}.

(** Lines 84-134: the overlap fractions and the bins.  [Ok None] is the
    early [return None, None] of line 108. *)
Definition overlap (w_in w_out : list Q) : result (option fractions) :=
  l_min <- getitem w_out 0 ;;
  l_max <- getitem w_out (-1) ;;
  w_out1 <- getitem w_out 1 ;;
  let dl := w_out1 - l_min in
  idx_in <- argmax (map (fun w => Qltb l_min w) w_in) ;;
  w_in_i <- getitem w_in idx_in ;;
  idx_out <- argmax (map (fun w => Qltb w_in_i w) w_out) ;;
  w_out_o <- getitem w_out idx_out ;;
  let d_low := w_out_o - w_in_i in
  w_in_i1 <- getitem w_in (idx_in + 1) ;;
  let d_high := w_in_i1 - w_out_o in
  if Qeq_bool dl 0 then Raise NonFinite else
  let bin_low := map (fun w => Qfloor ((w - l_min) / dl)) w_in in
  let good_low := map in_grid bin_low in
  let bin_high := map (fun b => (b + 1)%Z) bin_low in
  let good_high := map in_grid bin_high in
  if negb (np_any good_low) || negb (np_any good_high) then Ok None else
  lowest <- np_min (select bin_low good_low) ;;
  d <-
    (if (lowest =? 0)%Z then
       let base := l_min in
       idx_in <- argmax (map (fun w => Qltb l_min w) (tl w_in)) ;;
       w_in_i <- getitem w_in idx_in ;;
       a <- argmax (map (fun w => Qltb w_in_i w) w_out) ;;
       let idx_out := (a - 1)%Z in
       r <-
         (if (idx_in =? -1)%Z then
            let idx_in := (idx_in + 1)%Z in
            let idx_out := (idx_out + 1)%Z in
            base <- getitem w_out idx_out ;;
            Ok (idx_in, base)
          else Ok (idx_in, base)) ;;
       let '(idx_in, base) := r in
       w_in_i <- getitem w_in idx_in ;;
       let d_low := base - w_in_i in
       w_in_i1 <- getitem w_in (idx_in + 1) ;;
       let d_high := w_in_i1 - base in
       Ok (d_low, d_high)
     else
       highest <- np_max (select bin_high good_high) ;;
       if (highest =? Z.of_nat (length w_out) - 1)%Z then
         a <- argmax (map (fun w => Qltb l_max w) w_in) ;;
         let idx_in := (a - 1)%Z in
         let idx_out := (-1)%Z in
         w_out_o <- getitem w_out idx_out ;;
         w_in_i <- getitem w_in idx_in ;;
         let d_low := w_out_o - w_in_i in
         w_in_i1 <- getitem w_in (idx_in + 1) ;;
         let d_high := w_in_i1 - w_out_o in
         Ok (d_low, d_high)
       else Ok (d_low, d_high)) ;;
  let '(d_low, d_high) := d in
  Ok (Some {| percent_low := d_low / dl;
              percent_high := d_high / dl;
              bin_low := bin_low;
              good_low := good_low;
              bin_high := bin_high;
              good_high := good_high |}).

(** Lines 137-139: [var = iv] is the caller's array itself, and
    [var[nz] = 1 / var[nz]] writes into it.  A float array has its nonzero
    entries replaced by their reciprocals; in a boolean array [1 / True] is
    stored back as [True]. *)
Definition invert_nonzero (iv : ndarray) : ndarray :=
  match iv with
  | FloatArr xs => FloatArr (map (fun x => if nonzero x then 1 / x else x) xs)
  | BoolArr bs => BoolArr bs
  end.

(** Lines 141-147: the four [np.bincount] calls and [fl_out]. *)
Definition accumulate (f : fractions) (n_out : nat) (fl var : list Q)
  : result (list Q * list Q * list Q) :=
  fl_low <- mask_index fl (good_low f) ;;
  c_low <- bincount (select (bin_low f) (good_low f))
                    (map (fun x => x * percent_low f) fl_low) n_out ;;
  fl_high <- mask_index fl (good_high f) ;;
  c_high <- bincount (select (bin_high f) (good_high f))
                     (map (fun x => x * percent_high f) fl_high) n_out ;;
  v_low <- mask_index var (good_low f) ;;
  var_low <- bincount (select (bin_low f) (good_low f))
                      (map (fun x => x * percent_low f ^ 2) v_low) n_out ;;
  v_high <- mask_index var (good_high f) ;;
  var_high <- bincount (select (bin_high f) (good_high f))
                       (map (fun x => x * percent_high f ^ 2) v_high) n_out ;;
  fl_out <- broadcast2 Qplus c_low c_high ;;
  Ok (fl_out, var_low, var_high).

(** Line 161: [np.abs(var_out) > 1e-2]. *)
Definition above_floor (v : Q) : bool := Qltb (1 # 100) (Qabs v).

(** Lines 160-162: [iv_out] is [var_out] itself; the entries above the floor
    are overwritten by their reciprocals, the others are left as they are. *)
Definition invert_back (var_out : list Q) : list Q :=
  map (fun v => if above_floor v then 1 / v else v) var_out.

(** Lines 149-156: the coverage mask and its erosion. *)
Definition coverage (n_out : nat) (fl_out : list Q) : result (list bool) :=
  mask <- mask_assign (repeat 0 n_out) (map nonzero fl_out) 1 ;;
  Ok (binary_erosion (map nonzero mask)).

(** Lines 148-164. *)
Definition finish (n_out : nat) (fl_out var_low var_high : list Q) : result pytuple :=
  mask <- coverage n_out fl_out ;;
  var_out <- broadcast2 Qplus var_low var_high ;;
  let iv_out := invert_back var_out in
  iv_masked <- broadcast2 (fun v (m : bool) => v * b2q m) iv_out mask ;;
  Ok [Some (FloatArr fl_out); Some (FloatArr iv_masked); Some (BoolArr mask)].

(** [rebin_to_common(w_in, w_out, fl, iv, fl_idx)] (lines 79-164): the
    returned tuple, or the exception, and the store it leaves. *)
Definition rebin_to_common (w_in w_out fl iv : loc) (fl_idx : Z) (s : store)
  : result pytuple * store :=
  let a_in := as_float (s w_in) in
  let a_out := as_float (s w_out) in
  if (Z.of_nat (length a_in) <? 1)%Z then (Ok [None; None], s) else
  match overlap a_in a_out with
  | Raise e => (Raise e, s)
  | Ok None => (Ok [None; None], s)
  | Ok (Some f) =>
      let s' := upd s iv (invert_nonzero (s iv)) in
      (r <- accumulate f (length a_out) (as_float (s' fl)) (as_float (s' iv)) ;;
       let '(fl_out, var_low, var_high) := r in
       finish (length a_out) fl_out var_low var_high,
       s')
  end.

(** The call as the driver makes it: four distinct arrays. *)
Definition fresh_store (w_in w_out fl : list Q) (iv : ndarray) : store :=
  fun l =>
    match l with
    | 0%nat => FloatArr w_in
    | 1%nat => FloatArr w_out
    | 2%nat => FloatArr fl
    | _ => iv
    end.

Definition rebin_call (w_in w_out fl : list Q) (iv : ndarray) (fl_idx : Z)
  : result pytuple * store :=
  rebin_to_common 0%nat 1%nat 2%nat 3%nat fl_idx (fresh_store w_in w_out fl iv).

(** The grid [w] advances by [dl] from each sample to the next. *)
Definition uniform (dl : Q) (w : list Q) : Prop :=
  forall i, (S i < length w)%nat -> nth (S i) w 0 - nth i w 0 == dl.

(** The pure formulation the overwrite in place is compared with: the
    variance is a new array, and no argument is written. *)
Definition rebin_to_common_pure (w_in w_out fl : list Q) (iv : ndarray) (fl_idx : Z)
  : result pytuple :=
  if (Z.of_nat (length w_in) <? 1)%Z then Ok [None; None] else
  f <- overlap w_in w_out ;;
  match f with
  | None => Ok [None; None]
  | Some f =>
      let var := as_float (invert_nonzero iv) in
      r <- accumulate f (length w_out) fl var ;;
      let '(fl_out, var_low, var_high) := r in
      finish (length w_out) fl_out var_low var_high
  end.

End Rebin.

(** ** The noise injector *)

Module Noise.
Import Py.
Local Open Scope Q_scope.

(** The parts of numpy that are taken as given: a generator
    ([np.random.default_rng]) whose draws are functions of its state, and
    [np.sqrt]. *)
Class Numpy : Type := {
  generator : Type;
  default_rng : Z -> generator;
  rng_poisson : list Q -> generator -> list Z * generator;
  rng_uniform : Q -> Q -> generator -> Q * generator;
  rng_normal : Q -> Q -> nat -> generator -> list Q * generator;
  np_sqrt : Q -> Q
}.

(** Two arrays of one object have the same shape. *)
Definition same_shape (f w : list Q) : Prop := length f = length w.

(** [a.clip(min=0)]. *)
Definition clip_min0 (xs : list Q) : list Q :=
  map (fun x => if Qle_bool x 0 then 0 else x) xs.

(** [np.mean]. *)
Definition mean (xs : list Q) : Q := sum xs / inject_Z (Z.of_nat (length xs)).

Section AddNoise.

Context {np : Numpy}.

(** Module-level [fl_shift] and [w_shift] (line 295), read inside
    [add_noise]. *)
Variables fl_shift w_shift : list (list Q).

Definition loop_state : Type := generator * list (list Q) * list ndarray.

(** One turn of the loop of lines 175-211. *)
Definition add_noise_body (add_noise : bool) (i : nat) (st : loop_state)
  : result loop_state :=
  let '(rng, fl_noisy, iv_noisy) := st in
  let poisson := add_noise in
  fl_i <- getitem fl_shift (Z.of_nat i) ;;
  let '(x_poisson, rng) :=
    if poisson
    then let '(k, rng') := rng_poisson (clip_min0 fl_i) rng in (map inject_Z k, rng')
    else (fl_i, rng) in
  w_i <- getitem w_shift (Z.of_nat i) ;;
  x_poisson <- broadcast2 Qdiv x_poisson w_i ;;
  let var_poisson := x_poisson in
  let signal := mean (map (fun x => x ^ 2) x_poisson) in
  let '(snr_choice, rng) := rng_uniform (1 # 2) (3 # 2) rng in
  let noise_sigma := np_sqrt signal / snr_choice in
  let '(noise, rng) := rng_normal 0 noise_sigma (length fl_i) rng in
  let var_noise := noise_sigma ^ 2 in
  if add_noise then
    fl_sim <- broadcast2 Qplus x_poisson noise ;;
    let iv := map (fun v => 1 / (v + var_noise)) var_poisson in
    Ok (rng, fl_noisy ++ [fl_sim], iv_noisy ++ [FloatArr iv])
  else
    fl_sim <- broadcast2 Qdiv fl_i w_i ;;
    Ok (rng, fl_noisy ++ [fl_sim], iv_noisy ++ [BoolArr (map nonzero fl_sim)]).

Fixpoint add_noise_loop (add_noise : bool) (range : list nat) (st : loop_state)
  : result loop_state :=
  match range with
  | [] => Ok st
  | i :: rest =>
      st' <- add_noise_body add_noise i st ;;
      add_noise_loop add_noise rest st'
  end.

(** [add_noise(fl, seed, add_noise)] (lines 167-213). *)
Definition add_noise (fl : list (list Q)) (seed : Z) (add_noise : bool)
  : result (list (list Q) * list ndarray) :=
  let rng := default_rng seed in
  st <- add_noise_loop add_noise (seq 0 (length fl_shift)) (rng, [], []) ;;
  let '(_, fl_noisy, iv_noisy) := st in
  Ok (fl_noisy, iv_noisy).

End AddNoise.

(** The numpy dtype of the inverse variance that [add_noise] appends:
    float with the flag on (line 206), bool with the flag off (line 209). *)
Definition iv_dtype (flag : bool) (v : ndarray) : Prop :=
  if flag then exists xs, v = FloatArr xs else exists bs, v = BoolArr bs.

(** The draws of numpy's generator have the shape they are asked for. *)
Definition shape_preserving (np : Numpy) : Prop :=
  (forall lam g, length (fst (rng_poisson lam g)) = length lam) /\
  (forall mu sigma n g, length (fst (rng_normal mu sigma n g)) = n).

(** A small generator on which the statements are exercised: a linear
    congruential state, draws read off the state, and the square root
    rounded down to a multiple of the denominator's inverse. *)
Definition lcg (g : Z) : Z := ((g * 1103515245 + 12345) mod 2147483648)%Z.

Definition lcg_numpy : Numpy := {|
  generator := Z;
  default_rng := fun seed => seed;
  rng_poisson := fun lam g => (map (fun x => (Qfloor x + g mod 2)%Z) lam, lcg g);
  rng_uniform := fun lo hi g => (lo + (hi - lo) * ((g mod 100) # 100), lcg g);
  rng_normal := fun mu sigma n g =>
    (map (fun k => mu + sigma * (((g + Z.of_nat k) mod 7 - 3) # 2)) (seq 0 n), lcg g);
  np_sqrt := fun x => (Z.sqrt (Qnum x * Zpos (Qden x)) # Qden x)
|}.

End Noise.

(** ** The renormalizer and the batch driver *)

Module Driver.
Import Py Rebin.
Local Open Scope Q_scope.

Fixpoint insert_sorted (x : Q) (l : list Q) : list Q :=
  match l with
  | [] => [x]
  | y :: rest => if Qle_bool x y then x :: l else y :: insert_sorted x rest
  end.

Definition sort (l : list Q) : list Q := fold_right insert_sorted [] l.

(** [np.median]: the middle of the sorted values, or the mean of the two
    middle ones; [nan] on an empty array. *)
Definition median (l : list Q) : result Q :=
  let s := sort l in
  let n := length s in
  match n with
  | O => Raise NonFinite
  | _ =>
      if Nat.odd n then Ok (nth (n / 2) s 0)
      else Ok ((nth (n / 2 - 1) s 0 + nth (n / 2) s 0) / 2)
  end.

(** [a[lo:hi]] for non-negative [lo] and [hi]. *)
Definition slice {A : Type} (a : list A) (lo hi : Z) : list A :=
  firstn (Z.to_nat hi - Z.to_nat lo) (skipn (Z.to_nat lo) a).

(** Lines 230-233. *)
Definition norm_val_of (w_scale : list Q) (spectra_for_norm : option (list Q))
  (waves_i : list Q) : result Q :=
  first <- getitem waves_i 0 ;;
  norm_min <- argmax (map (fun w => Qltb first w) w_scale) ;;
  final <- getitem waves_i (-1) ;;
  norm_max <- argmax (map (fun w => Qltb final w) w_scale) ;;
  match spectra_for_norm with
  | None => Raise TypeError
  | Some spectra => median (slice spectra norm_min norm_max)
  end.

(** Line 234. *)
Definition spec_val_of (fl_1 : list Q) : result Q :=
  median (filter nonzero fl_1).

(** Line 236. *)
Definition scale_of (norm_val spec_val : Q) : result Q :=
  if Qeq_bool (Qabs spec_val) 0 then Raise NonFinite
  else Ok (norm_val / Qabs spec_val).

(** Lines 230-238. *)
Definition renormalize (w_scale : list Q) (spectra_for_norm : option (list Q))
  (waves_i fl_1 iv_1 : list Q) : result (list Q * list Q) :=
  norm_val <- norm_val_of w_scale spectra_for_norm waves_i ;;
  spec_val <- spec_val_of fl_1 ;;
  scale <- scale_of norm_val spec_val ;;
  let normed := map (fun x => x * scale) fl_1 in
  if Qeq_bool (scale ^ 2) 0 then Raise NonFinite else
  let normed_iv := map (fun x => x / scale ^ 2) iv_1 in
  Ok (normed, normed_iv).

Section RebinAll.

(** [np.log10] on one float. *)
Variable np_log10 : Q -> Q.

Definition rebinned : Type := list (list Q) * list (list Q) * list ndarray.

Definition float_of (o : option ndarray) : result (list Q) :=
  match o with
  | Some a => Ok (as_float a)
  | None => Raise TypeError
  end.

(** One turn of the loop of lines 221-249.  The four arguments of the call
    of line 222 are four distinct arrays.  [rebin_to_common] returns a flux
    array only together with an inverse variance and a mask, so a null one
    next to a flux is a [TypeError] here. *)
Definition rebin_all_body (fl : list (list Q)) (iv : list ndarray)
  (waves : list (list Q)) (w_rest w_scale : list Q)
  (spectra_for_norm : option (list Q)) (renorm add_noise : bool)
  (i : nat) (acc : rebinned) : result rebinned :=
  let '(fl_rebinned, iv_rebinned, masks) := acc in
  waves_i <- getitem waves (Z.of_nat i) ;;
  fl_i <- getitem fl (Z.of_nat i) ;;
  iv_i <- getitem iv (Z.of_nat i) ;;
  t <- fst (rebin_call (map np_log10 waves_i) (map np_log10 w_rest)
                       fl_i iv_i (Z.of_nat i)) ;;
  match t with
  | [fl_1; iv_1; m] =>
      match fl_1 with
      | None => Ok acc
      | Some a_fl =>
          let fl_1 := as_float a_fl in
          r <-
            (if renorm then
               iv_1 <- float_of iv_1 ;;
               renormalize w_scale spectra_for_norm waves_i fl_1 iv_1
             else
               iv_1 <- float_of iv_1 ;;
               Ok (fl_1, iv_1)) ;;
          let '(normed, normed_iv) := r in
          mask <- match m with Some a => Ok a | None => Raise TypeError end ;;
          if add_noise
          then Ok (fl_rebinned ++ [normed], iv_rebinned ++ [normed_iv], masks ++ [mask])
          else Ok (fl_rebinned ++ [normed], iv_rebinned ++ [as_float mask], masks ++ [mask])
      end
  | _ => Raise ValueError
  end.

Fixpoint rebin_all_loop (fl : list (list Q)) (iv : list ndarray)
  (waves : list (list Q)) (w_rest w_scale : list Q)
  (spectra_for_norm : option (list Q)) (renorm add_noise : bool)
  (range : list nat) (acc : rebinned) : result rebinned :=
  match range with
  | [] => Ok acc
  | i :: rest =>
      acc' <- rebin_all_body fl iv waves w_rest w_scale spectra_for_norm
                             renorm add_noise i acc ;;
      rebin_all_loop fl iv waves w_rest w_scale spectra_for_norm
                     renorm add_noise rest acc'
  end.

(** [rebin_all(fl, iv, waves, w_rest, w_scale, spectra_for_norm, renorm,
    add_noise)] (lines 216-251). *)
Definition rebin_all (fl : list (list Q)) (iv : list ndarray)
  (waves : list (list Q)) (w_rest w_scale : list Q)
  (spectra_for_norm : option (list Q)) (renorm add_noise : bool)
  : result rebinned :=
  rebin_all_loop fl iv waves w_rest w_scale spectra_for_norm renorm add_noise
                 (seq 0 (length fl)) ([], [], []).

End RebinAll.

(** The lists [rebin_all] builds hold arrays with one entry for every bin
    of [w_rest]; with [add_noise] off the inverse variances are the masks
    read as floats. *)
Definition grid_shaped (w_rest : list Q) (add_noise : bool)
  (fr ir : list (list Q)) (ms : list ndarray) : Prop :=
  Forall (fun x => length x = length w_rest) fr /\
  Forall (fun v => length v = length w_rest) ir /\
  Forall (fun m => exists bs, m = BoolArr bs /\ length bs = length w_rest) ms /\
  (add_noise = false -> ir = map as_float ms).

End Driver.

(** ** The deshifter and the scaling quasar *)

Module Deshift.
Import Py Driver.
Local Open Scope Q_scope.

Definition stacked : Type := list (list Q) * list (list Q).

(** One turn of the loop of lines 47-54. *)
Definition deshift_body (fl : list (list Q)) (redshifts w_obs : list Q)
  (i : nat) (acc : stacked) : result stacked :=
  let '(X, waves) := acc in
  z <- getitem redshifts (Z.of_nat i) ;;
  if Qeq_bool (1 + z) 0 then Raise NonFinite else
  let shifted_wave := map (fun w => w / (1 + z)) w_obs in
  fl_i <- getitem fl (Z.of_nat i) ;;
  m <- median fl_i ;;
  if Qeq_bool m 0 then Raise NonFinite else
  x <- broadcast2 Qmult (map (fun f => f / m) fl_i) shifted_wave ;;
  Ok (X ++ [x], waves ++ [shifted_wave]).

Fixpoint deshift_loop (fl : list (list Q)) (redshifts w_obs : list Q)
  (range : list nat) (acc : stacked) : result stacked :=
  match range with
  | [] => Ok acc
  | i :: rest =>
      acc' <- deshift_body fl redshifts w_obs i acc ;;
      deshift_loop fl redshifts w_obs rest acc'
  end.

(** [deshift_and_stack(fl, redshifts, w_obs)] (lines 43-56); [fl] is the
    two-dimensional flux array, one row for each object. *)
Definition deshift_and_stack (fl : list (list Q)) (redshifts w_obs : list Q)
  : result stacked :=
  deshift_loop fl redshifts w_obs (seq 0 (length fl)) ([], []).

(** What [deshift_and_stack] appends for object [i]: the rest-frame grid
    [w] and the flux [x], normalised by its median [m] and multiplied by
    [w]. *)
Definition deshifted (fl : list (list Q)) (redshifts w_obs : list Q)
  (i : nat) (x w : list Q) : Prop :=
  exists z f m,
    getitem redshifts (Z.of_nat i) = Ok z /\ ~ 1 + z == 0 /\
    getitem fl (Z.of_nat i) = Ok f /\
    median f = Ok m /\ ~ m == 0 /\
    w = map (fun v => v / (1 + z)) w_obs /\
    broadcast2 Qmult (map (fun v => v / m) f) w = Ok x.

Section ScalingQso.

(** The simqso calls of lines 62-73, taken as given: the first spectrum
    built for the rest-frame grid, the observed grid, the seed and the
    redshift. *)
Variable simulate : list Q -> list Q -> Z -> Q -> list Q.

(** [generate_scaling_qso(wave, seed, z_gen)] (lines 59-77). *)
Definition generate_scaling_qso (wave : list Q) (seed : Z) (z_gen : Q)
  : result (list Q) :=
  let spectra_for_norm :=
    simulate wave (map (fun w => w * (1 + z_gen)) wave) seed z_gen in
  m <- median spectra_for_norm ;;
  if Qeq_bool m 0 then Raise NonFinite else
  Ok (map (fun f => f / m) spectra_for_norm).

End ScalingQso.

End Deshift.

(** ** The script: the common grid and the output matrices *)

Module Script.
Import Py Rebin.

(** A bound of a Python slice of a sequence of length [n]. *)
Definition slice_index (n k : Z) : Z :=
  if (k <? 0)%Z then Z.max (k + n) 0 else Z.min k n.

(** [a[lo:hi]] for Python ints [lo] and [hi] of either sign. *)
Definition pyslice {A : Type} (a : list A) (lo hi : Z) : list A :=
  let n := Z.of_nat (length a) in
  let start := slice_index n lo in
  let stop := slice_index n hi in
  firstn (Z.to_nat (stop - start)) (skipn (Z.to_nat start) a).

(** Lines 279-285: [w_rest], cut out of the middle of [w_scale]. *)
Definition common_grid {A : Type} (w_scale : list A) : list A :=
  let nbins := Z.of_nat (length w_scale) in
  let trunc := ((nbins - nbins_final) / 2)%Z in
  let w_rest := pyslice w_scale trunc (- trunc) in
  if (Z.of_nat (length w_rest) =? 11401)%Z then pyslice w_rest 0 (-1) else w_rest.

(** [np.vstack(rows).T] (lines 308-309): one column for each row;
    [ValueError] when there is no row or the rows differ in length. *)
Definition vstack_T (rows : list (list Q)) : result (list (list Q)) :=
  match rows with
  | [] => Raise ValueError
  | r :: rest =>
      if forallb (fun r' => (length r' =? length r)%nat) rest
      then Ok (map (fun k => map (fun row => nth k row 0%Q) rows) (seq 0 (length r)))
      else Raise ValueError
  end.

End Script.

(** ** The wavelength grid builder *)

Module Grid.
Local Open Scope R_scope.

Definition log10 (x : R) : R := ln x / ln 10.

(** [10 ** x]. *)
Definition pow10 (x : R) : R := Rpower 10 x.

Definition floor (x : R) : Z := Int_part x.
Definition ceil (x : R) : Z := (- Int_part (- x))%Z.

(** [np.arange(n)] for a float [n]: 0, 1, ... below [n], so [ceil n] of
    them (none when [n <= 0]). *)
Definition arange (n : R) : list R := map INR (seq 0 (Z.to_nat (ceil n))).

(** [get_wave(wavemin, wavemax, dloglam)] (lines 28-41). *)
Definition get_wave (wavemin wavemax dloglam : R) : list R :=
  let n := log10 (wavemax / wavemin) / dloglam in
  map (fun k => pow10 (log10 wavemin + dloglam * k)) (arange n).

End Grid.

(** * Properties *)

Import Py.
Local Open Scope Q_scope.

(** ** numpy helpers *)

Lemma bind_Ok {A B : Type} (r : result A) (k : A -> result B) (b : B) :
  bind r k = Ok b -> exists a, r = Ok a /\ k a = Ok b.
Proof.
  destruct r as [a|e]; simpl; intros H.
  - exists a; split; [reflexivity | exact H].
  - discriminate H.
Qed.

Ltac bind_inv H :=
  let a := fresh "a" in
  let Ha := fresh "Ha" in
  apply bind_Ok in H; destruct H as (a & Ha & H).

Lemma nonzero_true (x : Q) : nonzero x = true <-> ~ x == 0.
Proof.
  unfold nonzero. rewrite negb_true_iff.
  split; intros H.
  - intros E. apply Qeq_bool_iff in E. congruence.
  - destruct (Qeq_bool x 0) eqn:E; [|reflexivity].
    apply Qeq_bool_iff in E. contradiction.
Qed.

Lemma nonzero_false (x : Q) : nonzero x = false <-> x == 0.
Proof.
  unfold nonzero. rewrite negb_false_iff. apply Qeq_bool_iff.
Qed.


Lemma Qltb_false (x y : Q) : Qltb x y = false <-> y <= x.
Proof.
  unfold Qltb. rewrite negb_false_iff. apply Qle_bool_iff.
Qed.

Lemma zip_with_length {A B C : Type} (f : A -> B -> C) (xs : list A) (ys : list B) :
  length xs = length ys -> length (zip_with f xs ys) = length xs.
Proof.
  revert ys; induction xs as [|x xs IH]; intros [|y ys]; simpl; intros H;
    try reflexivity; try discriminate.
  f_equal. apply IH. lia.
Qed.

Lemma zip_with_nth {A B C : Type} (f : A -> B -> C) (xs : list A) (ys : list B)
  (k : nat) (da : A) (db : B) (dc : C) :
  length xs = length ys -> (k < length xs)%nat ->
  nth k (zip_with f xs ys) dc = f (nth k xs da) (nth k ys db).
Proof.
  revert ys k; induction xs as [|x xs IH]; intros [|y ys] k; simpl; intros H L;
    try lia; try discriminate.
  destruct k as [|k]; [reflexivity|]. apply IH; lia.
Qed.

(** The length of a broadcast result depends on the operands' lengths only. *)
Lemma broadcast2_length {A B C A' B' C' : Type} (f : A -> B -> C) (g : A' -> B' -> C')
  (xs : list A) (ys : list B) (zs : list C)
  (xs' : list A') (ys' : list B') (zs' : list C') :
  broadcast2 f xs ys = Ok zs -> broadcast2 g xs' ys' = Ok zs' ->
  length xs = length xs' -> length ys = length ys' -> length zs = length zs'.
Proof.
  unfold broadcast2. intros H H' Lx Ly.
  rewrite <- Lx, <- Ly in H'.
  destruct (length xs =? length ys)%nat eqn:E.
  - apply Nat.eqb_eq in E. injection H as <-. injection H' as <-.
    rewrite !zip_with_length; lia.
  - destruct xs as [|x [|x2 xs]], xs' as [|x' [|x2' xs']]; simpl in Lx;
      try discriminate Lx.
    + destruct ys as [|y [|y2 ys]], ys' as [|y' [|y2' ys']]; simpl in Ly;
        try discriminate Ly; try discriminate H; try discriminate E.
      injection H as <-. injection H' as <-. reflexivity.
    + injection H as <-. injection H' as <-. rewrite !length_map. exact Ly.
    + destruct ys as [|y [|y2 ys]], ys' as [|y' [|y2' ys']]; simpl in Ly;
        try discriminate Ly; try discriminate H.
      injection H as <-. injection H' as <-. simpl. rewrite !length_map.
      simpl in Lx. lia.
Qed.

Lemma broadcast2_same_length {A B C : Type} (f : A -> B -> C)
  (xs : list A) (ys : list B) (zs : list C) :
  length xs = length ys -> broadcast2 f xs ys = Ok zs ->
  zs = zip_with f xs ys.
Proof.
  unfold broadcast2. intros L. apply Nat.eqb_eq in L. rewrite L.
  intros H; injection H as <-. reflexivity.
Qed.

Lemma erode_from_length (m : list bool) : forall p, length (erode_from p m) = length m.
Proof.
  induction m as [|x m IH]; intros p; simpl; [reflexivity|]. now rewrite IH.
Qed.

(** A bin survives the erosion when it and both its neighbours are set; the
    bins beyond the ends count as set. *)
Lemma erode_from_nth (m : list bool) : forall p k, (k < length m)%nat ->
  nth k (erode_from p m) false =
  (match k with O => p | S j => nth j m true end) && nth k m true && nth (S k) m true.
Proof.
  induction m as [|x m IH]; intros p k L; simpl in L; [lia|].
  destruct k as [|k].
  - simpl. destruct m; reflexivity.
  - simpl erode_from. cbn [nth]. rewrite IH by lia.
    destruct k; reflexivity.
Qed.

Lemma assigned_mask (bs : list bool) : forall n, length bs = n ->
  map nonzero (zip_with (fun t (b : bool) => if b then 1 else t) (repeat 0 n) bs) = bs.
Proof.
  induction bs as [|b bs IH]; intros n L; simpl in L; subst n; simpl; [reflexivity|].
  rewrite IH by reflexivity. destruct b; reflexivity.
Qed.

Lemma add_at_length (k : nat) (w : Q) (out : list Q) :
  length (add_at k w out) = length out.
Proof.
  revert k; induction out as [|x out IH]; intros k; simpl; [reflexivity|].
  destruct k; simpl; [reflexivity|]. now rewrite IH.
Qed.

Lemma fold_add_at_length (ps : list (Z * Q)) : forall out,
  length (fold_left (fun out p => add_at (Z.to_nat (fst p)) (snd p) out) ps out)
  = length out.
Proof.
  induction ps as [|p ps IH]; intros out; simpl; [reflexivity|].
  rewrite IH. apply add_at_length.
Qed.

Lemma bincount_length (x : list Z) (w : list Q) (n : nat) (out : list Q) :
  bincount x w n = Ok out ->
  length out = Nat.max n (Z.to_nat (fold_left Z.max x (-1)%Z + 1)).
Proof.
  unfold bincount.
  destruct (existsb _ x); [discriminate|].
  destruct (negb _); [discriminate|].
  intros H; injection H as <-.
  rewrite fold_add_at_length. apply repeat_length.
Qed.

(** ** The rebinner: what a returned tuple was computed from *)

Import Rebin.

Lemma rebin_to_common_Ok (w_in w_out fl iv : loc) (fl_idx : Z) (s s' : store)
  (t : pytuple) :
  rebin_to_common w_in w_out fl iv fl_idx s = (Ok t, s') ->
  (t = [None; None] /\ s' = s) \/
  exists f fl_out var_low var_high,
    overlap (as_float (s w_in)) (as_float (s w_out)) = Ok (Some f) /\
    s' = upd s iv (invert_nonzero (s iv)) /\
    accumulate f (length (as_float (s w_out)))
               (as_float (s' fl)) (as_float (s' iv))
    = Ok (fl_out, var_low, var_high) /\
    finish (length (as_float (s w_out))) fl_out var_low var_high = Ok t.
Proof.
  unfold rebin_to_common.
  destruct (Z.of_nat (length (as_float (s w_in))) <? 1)%Z.
  - intros H; injection H as <- <-. left; split; reflexivity.
  - destruct (overlap _ _) as [[f|]|e].
    + intros H. injection H as H <-.
      bind_inv H. destruct a as [[fl_out var_low] var_high].
      right. exists f, fl_out, var_low, var_high.
      repeat split; assumption.
    + intros H; injection H as <- <-. left; split; reflexivity.
    + intros H; discriminate H.
Qed.

Lemma coverage_Ok (n : nat) (fl_out : list Q) (mask : list bool) :
  coverage n fl_out = Ok mask ->
  length fl_out = n /\ mask = binary_erosion (map nonzero fl_out).
Proof.
  unfold coverage, mask_assign. rewrite repeat_length, length_map.
  destruct (n =? length fl_out)%nat eqn:E; [|discriminate].
  apply Nat.eqb_eq in E. simpl. intros H; injection H as <-.
  split; [symmetry; exact E|].
  rewrite assigned_mask; [reflexivity|]. rewrite length_map. symmetry; exact E.
Qed.

Lemma finish_Ok (n : nat) (fl_out var_low var_high : list Q) (t : pytuple) :
  finish n fl_out var_low var_high = Ok t ->
  exists var_out iv_masked,
    length fl_out = n /\
    broadcast2 Qplus var_low var_high = Ok var_out /\
    broadcast2 (fun v (m : bool) => v * b2q m) (invert_back var_out)
               (binary_erosion (map nonzero fl_out)) = Ok iv_masked /\
    t = [Some (FloatArr fl_out); Some (FloatArr iv_masked);
         Some (BoolArr (binary_erosion (map nonzero fl_out)))].
Proof.
  unfold finish. intros H.
  bind_inv H. apply coverage_Ok in Ha. destruct Ha as [L ->].
  bind_inv H. rename a into var_out.
  bind_inv H. rename a into iv_masked.
  injection H as <-.
  exists var_out, iv_masked. repeat split; assumption.
Qed.

(** The variance bins are laid out exactly as the flux bins. *)
Lemma accumulate_lengths (f : fractions) (n : nat) (fl var fl_out vl vh var_out : list Q) :
  accumulate f n fl var = Ok (fl_out, vl, vh) ->
  broadcast2 Qplus vl vh = Ok var_out ->
  length var_out = length fl_out.
Proof.
  unfold accumulate. intros H V.
  bind_inv H. bind_inv H. rename a0 into c_low, Ha0 into Hcl.
  bind_inv H. bind_inv H. rename a1 into c_high, Ha1 into Hch.
  bind_inv H. bind_inv H. rename a2 into v_low, Ha2 into Hvl.
  bind_inv H. bind_inv H. rename a3 into v_high, Ha3 into Hvh.
  bind_inv H. injection H as -> -> ->.
  apply bincount_length in Hcl, Hch, Hvl, Hvh.
  eapply broadcast2_length; [exact V | eassumption | lia | lia].
Qed.

Lemma binary_erosion_length (m : list bool) :
  length (binary_erosion m) = length m.
Proof. apply erode_from_length. Qed.

Lemma binary_erosion_nth (m : list bool) (k : nat) : (k < length m)%nat ->
  nth k (binary_erosion m) false =
  (match k with O => true | S j => nth j m true end) && nth k m true && nth (S k) m true.
Proof. apply erode_from_nth. Qed.

Lemma nth_map_nonzero (xs : list Q) (k : nat) (d : bool) : (k < length xs)%nat ->
  nth k (map nonzero xs) d = nonzero (nth k xs 0).
Proof.
  intros L. rewrite (nth_indep _ d (nonzero 0)) by (rewrite length_map; exact L).
  apply map_nth.
Qed.

Lemma returned_tuple (w_in w_out fl iv : loc) (fl_idx : Z) (s s' : store)
  (fl_out iv_out : list Q) (mask : list bool) :
  rebin_to_common w_in w_out fl iv fl_idx s
  = (Ok [Some (FloatArr fl_out); Some (FloatArr iv_out); Some (BoolArr mask)], s') ->
  exists f var_low var_high var_out,
    overlap (as_float (s w_in)) (as_float (s w_out)) = Ok (Some f) /\
    s' = upd s iv (invert_nonzero (s iv)) /\
    accumulate f (length (as_float (s w_out)))
               (as_float (s' fl)) (as_float (s' iv))
    = Ok (fl_out, var_low, var_high) /\
    broadcast2 Qplus var_low var_high = Ok var_out /\
    length var_out = length fl_out /\
    mask = binary_erosion (map nonzero fl_out) /\
    iv_out = zip_with (fun v (m : bool) => v * b2q m) (invert_back var_out) mask.
Proof.
  intros H. apply rebin_to_common_Ok in H.
  destruct H as [[H _] | (f & fl_out' & vl & vh & Hov & Hs & Hacc & Hfin)];
    [discriminate H|].
  apply finish_Ok in Hfin.
  destruct Hfin as (var_out & iv_masked & Ln & Hv & Hm & Ht).
  injection Ht as <- <- ->.
  pose proof (accumulate_lengths _ _ _ _ _ _ _ _ Hacc Hv) as Lv.
  exists f, vl, vh, var_out. repeat split; try assumption.
  apply broadcast2_same_length in Hm; [exact Hm|].
  unfold invert_back. rewrite length_map, binary_erosion_length, length_map.
  exact Lv.
Qed.

(** ** C7: the coverage mask *)

(** C7.  When the rebinner returns arrays, a bin of the mask is set only if
    its accumulated flux is nonzero, every bin next to a bin of zero flux is
    cleared, and the returned inverse variance is zero wherever the mask is
    cleared. *)
Theorem C7_coverage_mask (w_in w_out fl iv : loc) (fl_idx : Z) (s s' : store)
  (fl_out iv_out : list Q) (mask : list bool) :
  rebin_to_common w_in w_out fl iv fl_idx s
  = (Ok [Some (FloatArr fl_out); Some (FloatArr iv_out); Some (BoolArr mask)], s') ->
  length mask = length fl_out /\
  length iv_out = length fl_out /\
  (forall k, nth k mask false = true -> ~ nth k fl_out 0 == 0) /\
  (forall j k, (j < length fl_out)%nat -> k = S j \/ j = S k ->
               nth j fl_out 0 == 0 -> nth k mask false = false) /\
  (forall k, nth k mask false = false -> nth k iv_out 0 == 0).
Proof.
  intros H. apply returned_tuple in H.
  destruct H as (f & vl & vh & var_out & _ & _ & _ & _ & Lv & Hm & Hiv).
  assert (Lm : length mask = length fl_out)
    by (subst mask; rewrite binary_erosion_length, length_map; reflexivity).
  assert (Li : length (invert_back var_out) = length mask)
    by (unfold invert_back; rewrite length_map; lia).
  split; [exact Lm|]. split; [subst iv_out; rewrite zip_with_length; lia|].
  split; [|split].
  - intros k Hk.
    destruct (Nat.lt_ge_cases k (length fl_out)) as [L|L].
    + subst mask. rewrite binary_erosion_nth in Hk by (rewrite length_map; exact L).
      apply andb_true_iff in Hk. destruct Hk as [Hk _].
      apply andb_true_iff in Hk. destruct Hk as [_ Hk].
      rewrite nth_map_nonzero in Hk by exact L.
      apply nonzero_true. exact Hk.
    + rewrite nth_overflow in Hk by lia. discriminate Hk.
  - intros j k Lj Adj Hz.
    apply nonzero_false in Hz.
    destruct (Nat.lt_ge_cases k (length fl_out)) as [L|L];
      [|apply nth_overflow; lia].
    subst mask. rewrite binary_erosion_nth by (rewrite length_map; exact L).
    destruct Adj as [-> | ->].
    + rewrite (nth_map_nonzero _ j) by exact Lj. rewrite Hz. reflexivity.
    + rewrite (nth_map_nonzero _ (S k)) by exact Lj. rewrite Hz.
      apply andb_false_r.
  - intros k Hk.
    destruct (Nat.lt_ge_cases k (length fl_out)) as [L|L].
    + subst iv_out.
      rewrite (zip_with_nth _ _ _ _ 0 false) by lia.
      rewrite Hk. simpl. ring.
    + rewrite nth_overflow; [reflexivity|].
      subst iv_out. rewrite zip_with_length; lia.
Qed.

(** A run on which C7 is exercised: three samples inside a six-bin grid. *)
Lemma C7_coverage_mask_witness :
  exists fl_out iv_out mask s',
    rebin_call [3 # 2; 5 # 2; 7 # 2] [0; 1; 2; 3; 4; 5] [1; 1; 1]
               (FloatArr [1; 1; 1]) 0
    = (Ok [Some (FloatArr fl_out); Some (FloatArr iv_out); Some (BoolArr mask)], s') /\
    mask = [false; false; true; true; false; false] /\
    length mask = length fl_out /\
    length iv_out = length fl_out /\
    (forall k, nth k mask false = true -> ~ nth k fl_out 0 == 0) /\
    (forall j k, (j < length fl_out)%nat -> k = S j \/ j = S k ->
                 nth j fl_out 0 == 0 -> nth k mask false = false) /\
    (forall k, nth k mask false = false -> nth k iv_out 0 == 0).
Proof.
  eexists _, _, _, _.
  match goal with |- ?run /\ _ => assert (H : run) by (vm_compute; reflexivity) end.
  split; [exact H|].
  split; [reflexivity|].
  exact (C7_coverage_mask _ _ _ _ _ _ _ _ _ _ H).
Defined.

(** ** C5: the floor on the variance before it is inverted back *)




(** A run with both cases.  With inverse variances 1000, 10, 1000 the
    accumulated variances are 0, 1/4000, 101/4000, 101/4000, 1/4000, 0; the
    mask keeps bins 2 and 3, whose variances are above the floor and come
    back as their reciprocals.  With 1000 throughout, bin 2 holds 1/2000,
    below the floor: it comes back as 1/2000, neither 2000 nor 0. *)
Example variance_floor_runs :
  (exists iv_out s',
     rebin_call [3 # 2; 5 # 2; 7 # 2] [0; 1; 2; 3; 4; 5] [1; 1; 1]
                (FloatArr [1000; 10; 1000]) 0
     = (Ok [Some (FloatArr [0; 1 # 2; 4 # 4; 4 # 4; 1 # 2; 0]);
            Some (FloatArr iv_out);
            Some (BoolArr [false; false; true; true; false; false])], s') /\
     Forall2 Qeq iv_out [0; 0; 4000 # 101; 4000 # 101; 0; 0]) /\
  (exists iv_out s',
     rebin_call [3 # 2; 5 # 2; 7 # 2] [0; 1; 2; 3; 4; 5] [1; 1; 1]
                (FloatArr [1000; 1000; 1000]) 0
     = (Ok [Some (FloatArr [0; 1 # 2; 4 # 4; 4 # 4; 1 # 2; 0]);
            Some (FloatArr iv_out);
            Some (BoolArr [false; false; true; true; false; false])], s') /\
     Forall2 Qeq iv_out [0; 0; 1 # 2000; 1 # 2000; 0; 0]).
Proof.
  split; eexists _, _; (split; [vm_compute; reflexivity | repeat constructor]).
Qed.

(** ** C6: the overwrite in place *)

Lemma upd_same (s : store) (l : loc) (a : ndarray) : upd s l a l = a.
Proof. unfold upd. now rewrite Nat.eqb_refl. Qed.

Lemma upd_other (s : store) (l l' : loc) (a : ndarray) : l' <> l -> upd s l a l' = s l'.
Proof. unfold upd. intros H. apply Nat.eqb_neq in H. now rewrite H. Qed.

(** C6, as the code has it.  With the flux and the inverse variance in
    distinct arrays, the rebinner returns (or raises) exactly what the pure
    formulation does and writes to no array but [iv].  It does not restore
    [iv]: whenever arrays are returned, [iv] is left with each nonzero entry
    replaced by its reciprocal; on the early returns the store is left as
    it was, and a boolean [iv] is left as it was. *)
Theorem C6_overwrite_in_place (w_in w_out fl iv : loc) (fl_idx : Z) (s : store) :
  fl <> iv ->
  fst (rebin_to_common w_in w_out fl iv fl_idx s)
  = rebin_to_common_pure (as_float (s w_in)) (as_float (s w_out))
                         (as_float (s fl)) (s iv) fl_idx /\
  (forall l, l <> iv -> snd (rebin_to_common w_in w_out fl iv fl_idx s) l = s l) /\
  (forall t, fst (rebin_to_common w_in w_out fl iv fl_idx s) = Ok t ->
             t <> [None; None] ->
             snd (rebin_to_common w_in w_out fl iv fl_idx s) iv = invert_nonzero (s iv)) /\
  (fst (rebin_to_common w_in w_out fl iv fl_idx s) = Ok [None; None] ->
   snd (rebin_to_common w_in w_out fl iv fl_idx s) = s) /\
  (forall bs, s iv = BoolArr bs ->
              snd (rebin_to_common w_in w_out fl iv fl_idx s) iv = s iv).
Proof.
  intros D. unfold rebin_to_common, rebin_to_common_pure.
  destruct (Z.of_nat (length (as_float (s w_in))) <? 1)%Z; simpl.
  - repeat split; try reflexivity. intros t H N. injection H as <-. contradiction.
  - destruct (overlap _ _) as [[f|]|e]; simpl.
    + rewrite upd_same, (upd_other _ _ _ _ D).
      split; [reflexivity|].
      split; [intros l N; apply upd_other; exact N|].
      split; [reflexivity|].
      split.
      * intros H. exfalso.
        destruct (accumulate _ _ _ _) as [[[fo vl] vh]|]; simpl in H;
          [|discriminate H].
        apply finish_Ok in H.
        destruct H as (vo & im & _ & _ & _ & H). discriminate H.
      * intros bs E. rewrite E. reflexivity.
    + repeat split; try reflexivity. intros t H N. injection H as <-. contradiction.
    + repeat split; try reflexivity. intros t H. discriminate H.
Qed.

Lemma C6_overwrite_in_place_witness :
  let run := rebin_call [3 # 2; 5 # 2; 7 # 2] [0; 1; 2; 3; 4; 5] [1; 1; 1]
                        (FloatArr [4; 4; 4]) 0 in
  fst run = rebin_to_common_pure [3 # 2; 5 # 2; 7 # 2] [0; 1; 2; 3; 4; 5] [1; 1; 1]
                                 (FloatArr [4; 4; 4]) 0 /\
  snd run 2%nat = FloatArr [1; 1; 1].
Proof.
  assert (D : 2%nat <> 3%nat) by discriminate.
  destruct (C6_overwrite_in_place 0%nat 1%nat 2%nat 3%nat 0
              (fresh_store [3 # 2; 5 # 2; 7 # 2] [0; 1; 2; 3; 4; 5] [1; 1; 1]
                           (FloatArr [4; 4; 4])) D) as (H1 & H2 & _).
  split; [exact H1 | exact (H2 2%nat D)].
Defined.

(** The claim as stated fails: after the call the caller's inverse variance
    [4, 4, 4] holds the variances [1/4, 1/4, 1/4]. *)
Lemma C6_counterexample :
  exists t s' after,
    rebin_call [3 # 2; 5 # 2; 7 # 2] [0; 1; 2; 3; 4; 5] [1; 1; 1]
               (FloatArr [4; 4; 4]) 0 = (Ok t, s') /\
    s' 3%nat = FloatArr after /\
    Forall2 Qeq after [1 # 4; 1 # 4; 1 # 4] /\
    ~ Forall2 Qeq after [4; 4; 4].
Proof.
  eexists _, _, _.
  split; [vm_compute; reflexivity|].
  split; [vm_compute; reflexivity|].
  split; [repeat constructor|].
  intros H. inversion H as [|x y l l' E _]; subst.
  vm_compute in E. discriminate E.
Qed.

(** ** C1: the null case *)

Lemma getitem_0 {A : Type} (x : A) (l : list A) : getitem (x :: l) 0 = Ok x.
Proof.
  unfold getitem. cbn [Z.ltb Z.compare length].
  replace ((0 <=? 0) && (0 <? Z.of_nat (S (length l))))%Z with true; [reflexivity|].
  symmetry. apply andb_true_iff. split; [reflexivity|]. apply Z.ltb_lt. lia.
Qed.

(** C1, as the code has it.  On a zero-length input grid [rebin_to_common]
    returns the pair [(None, None)], not a triple, and leaves the store as
    it was; the three-way unpacking of line 222 in [rebin_all] then raises
    [ValueError]. *)
Theorem C1_null_case_is_a_pair :
  (forall (w_out fl : list Q) (iv : ndarray) (fl_idx : Z),
     rebin_call [] w_out fl iv fl_idx
     = (Ok [None; None], fresh_store [] w_out fl iv)) /\
  (forall (np_log10 : Q -> Q) (fl_0 : list Q) (fl : list (list Q))
          (iv_0 : ndarray) (iv : list ndarray) (waves : list (list Q))
          (w_rest w_scale : list Q) (spectra_for_norm : option (list Q))
          (renorm add_noise : bool),
     Driver.rebin_all np_log10 (fl_0 :: fl) (iv_0 :: iv) ([] :: waves)
                      w_rest w_scale spectra_for_norm renorm add_noise
     = Raise ValueError).
Proof.
  split.
  - reflexivity.
  - intros. unfold Driver.rebin_all. cbn [length seq Driver.rebin_all_loop].
    unfold Driver.rebin_all_body. change (Z.of_nat 0) with 0%Z.
    rewrite !getitem_0. reflexivity.
Qed.

(** ** C2: the overlap fractions at the upper edge *)

(** C2, at an input the claim is wrong for.  Two samples at 1.5 and 2.5
    inside the grid 0, 1, 2, 3 (same step 1): the last sample's upper bin is
    the last bin of the grid, the branch of line 127 is taken, no sample
    lies above the grid, so [np.argmax] returns 0 and [idx_in] is -1.  The
    fractions are 1/2 and -3/2, their sum is -1, and the output flux sums to
    -2 while the input flux sums to 2. *)
Theorem C2_upper_edge_rollover :
  exists f fl_out iv_out mask s',
    overlap [3 # 2; 5 # 2] [0; 1; 2; 3] = Ok (Some f) /\
    percent_low f == 1 # 2 /\
    percent_high f == - (3 # 2) /\
    percent_low f + percent_high f == - (1) /\
    rebin_call [3 # 2; 5 # 2] [0; 1; 2; 3] [1; 1] (FloatArr [1; 1]) 0
    = (Ok [Some (FloatArr fl_out); Some (FloatArr iv_out); Some (BoolArr mask)], s') /\
    Forall2 Qeq fl_out [0; 1 # 2; - (1); - (3 # 2)] /\
    sum [1; 1] == 2 /\
    sum fl_out == - (2).
Proof.
  eexists _, _, _, _, _.
  split; [vm_compute; reflexivity|].
  split; [reflexivity|]. split; [reflexivity|]. split; [reflexivity|].
  split; [vm_compute; reflexivity|].
  split; [repeat constructor|].
  split; reflexivity.
Qed.

(** ** The noise injector: C4 and C10 *)

Import Noise.

Lemma getitem_app {A : Type} (pre : list A) (x : A) (rest : list A) :
  getitem (pre ++ x :: rest) (Z.of_nat (length pre)) = Ok x.
Proof.
  unfold getitem.
  replace (Z.of_nat (length pre) <? 0)%Z with false
    by (symmetry; apply Z.ltb_ge; lia).
  replace ((0 <=? Z.of_nat (length pre))
           && (Z.of_nat (length pre) <? Z.of_nat (length (pre ++ x :: rest))))%Z
    with true.
  - rewrite Nat2Z.id, nth_error_app2 by lia.
    rewrite Nat.sub_diag. reflexivity.
  - symmetry. apply andb_true_iff. split.
    + apply Z.leb_le. lia.
    + apply Z.ltb_lt. rewrite length_app. simpl. lia.
Qed.

Section NoiseProperties.

Context {np : Numpy}.

(** C4.  The lists returned by [add_noise] do not depend on its [fl]
    argument: with the same seed, flag and module-level [fl_shift] and
    [w_shift], any two arguments give the same result. *)
Theorem C4_fl_argument_ignored (fl_shift w_shift fl1 fl2 : list (list Q))
  (seed : Z) (flag : bool) :
  add_noise fl_shift w_shift fl1 seed flag = add_noise fl_shift w_shift fl2 seed flag.
Proof. reflexivity. Qed.

Lemma add_noise_loop_off (fl_shift w_shift : list (list Q)) :
  forall rest_f rest_w, Forall2 same_shape rest_f rest_w ->
  forall pre_f pre_w rng fl_noisy iv_noisy,
    fl_shift = pre_f ++ rest_f -> w_shift = pre_w ++ rest_w ->
    length pre_f = length pre_w ->
    exists rng',
      add_noise_loop fl_shift w_shift false
                     (seq (length pre_f) (length rest_f)) (rng, fl_noisy, iv_noisy)
      = Ok (rng',
            fl_noisy ++ zip_with (zip_with Qdiv) rest_f rest_w,
            iv_noisy ++ map (fun f => BoolArr (map nonzero f))
                            (zip_with (zip_with Qdiv) rest_f rest_w)).
Proof.
  induction 1 as [|f w rest_f rest_w Hfw Hrest IH];
    intros pre_f pre_w rng fl_noisy iv_noisy Ef Ew L.
  - exists rng. simpl. now rewrite !app_nil_r.
  - cbn [length seq add_noise_loop].
    assert (Gf : getitem fl_shift (Z.of_nat (length pre_f)) = Ok f)
      by (rewrite Ef; apply getitem_app).
    assert (Gw : getitem w_shift (Z.of_nat (length pre_f)) = Ok w)
      by (rewrite Ew, L; apply getitem_app).
    unfold add_noise_body at 1.
    rewrite Gf. cbn [bind]. rewrite Gw. cbn [bind].
    unfold broadcast2. red in Hfw. rewrite Hfw, Nat.eqb_refl. cbn [bind].
    destruct (rng_uniform _ _ rng) as [snr_choice rng1].
    destruct (rng_normal _ _ _ rng1) as [noise rng2].
    destruct (IH (pre_f ++ [f]) (pre_w ++ [w]) rng2
                 (fl_noisy ++ [zip_with Qdiv f w])
                 (iv_noisy ++ [BoolArr (map nonzero (zip_with Qdiv f w))]))
      as [rng' Hloop].
    + rewrite <- app_assoc. exact Ef.
    + rewrite <- app_assoc. exact Ew.
    + rewrite !length_app. simpl. lia.
    + exists rng'. rewrite length_app in Hloop. simpl in Hloop.
      rewrite Nat.add_1_r in Hloop. cbn [bind]. rewrite Hloop.
      cbn [zip_with map]. now rewrite <- !app_assoc.
Qed.

(** C10.  With the flag off, and the deshifted arrays shaped alike object
    by object, [add_noise] returns, for every object, the deshifted flux
    divided elementwise by the rest-frame wavelengths, and as inverse
    variance the boolean mask of where that quotient is nonzero; neither
    depends on the seed. *)
Theorem C10_flag_off (fl_shift w_shift fl : list (list Q)) (seed : Z) :
  Forall2 same_shape fl_shift w_shift ->
  add_noise fl_shift w_shift fl seed false
  = Ok (zip_with (zip_with Qdiv) fl_shift w_shift,
        map (fun f => BoolArr (map nonzero f))
            (zip_with (zip_with Qdiv) fl_shift w_shift)).
Proof.
  intros H. unfold add_noise.
  destruct (add_noise_loop_off fl_shift w_shift _ _ H [] [] (default_rng seed) [] [])
    as [rng' Hloop]; try reflexivity.
  simpl in Hloop. rewrite Hloop. reflexivity.
Qed.

End NoiseProperties.

Lemma C10_flag_off_witness :
  add_noise (np := lcg_numpy) [[2; 0]; [3; 6]] [[1; 2]; [3; 3]] [] 100921 false
  = Ok ([[2 / 1; 0 / 2]; [3 / 3; 6 / 3]],
        [BoolArr [true; false]; BoolArr [true; true]]).
Proof.
  apply (C10_flag_off (np := lcg_numpy) [[2; 0]; [3; 6]] [[1; 2]; [3; 3]] [] 100921).
  repeat constructor.
Defined.

(** ** C8: the renormalizer *)

Import Driver.

Lemma scaled_by_one (c : Q) (xs : list Q) :
  c == 1 -> Forall2 Qeq (map (fun x => x * c) xs) xs.
Proof.
  intros E. induction xs as [|x xs IH]; simpl; constructor; [|exact IH].
  rewrite E. ring.
Qed.

Lemma divided_by_one (c : Q) (xs : list Q) :
  c == 1 -> Forall2 Qeq (map (fun x => x / c) xs) xs.
Proof.
  intros E. induction xs as [|x xs IH]; simpl; constructor; [|exact IH].
  rewrite E. field.
Qed.

(** C8, as the code has it.  When the median of the nonzero rebinned flux
    equals the median of the reference spectrum over the covered range and
    that common value is positive, the scale is 1 and the renormalizer
    returns the flux and the inverse variance unchanged. *)
Theorem C8_unit_scale (w_scale : list Q) (spectra_for_norm : option (list Q))
  (waves_i fl_1 iv_1 : list Q) (norm_val spec_val : Q) :
  norm_val_of w_scale spectra_for_norm waves_i = Ok norm_val ->
  spec_val_of fl_1 = Ok spec_val ->
  spec_val == norm_val ->
  0 < norm_val ->
  exists scale normed normed_iv,
    scale_of norm_val spec_val = Ok scale /\
    scale == 1 /\
    renormalize w_scale spectra_for_norm waves_i fl_1 iv_1 = Ok (normed, normed_iv) /\
    Forall2 Qeq normed fl_1 /\
    Forall2 Qeq normed_iv iv_1.
Proof.
  intros Hn Hs E P.
  assert (A : Qabs spec_val == norm_val).
  { rewrite Qabs_pos; [exact E|]. rewrite E. apply Qlt_le_weak. exact P. }
  assert (Z1 : Qeq_bool (Qabs spec_val) 0 = false).
  { destruct (Qeq_bool (Qabs spec_val) 0) eqn:B; [|reflexivity].
    apply Qeq_bool_iff in B. rewrite A in B. rewrite B in P.
    exfalso. revert P. apply Qlt_irrefl. }
  assert (S1 : norm_val / Qabs spec_val == 1).
  { rewrite A. field. intros Z0. rewrite Z0 in P. revert P. apply Qlt_irrefl. }
  assert (S2 : (norm_val / Qabs spec_val) ^ 2 == 1) by (rewrite S1; reflexivity).
  assert (Z2 : Qeq_bool ((norm_val / Qabs spec_val) ^ 2) 0 = false).
  { destruct (Qeq_bool ((norm_val / Qabs spec_val) ^ 2) 0) eqn:B; [|reflexivity].
    apply Qeq_bool_iff in B. rewrite S2 in B. discriminate B. }
  exists (norm_val / Qabs spec_val).
  exists (map (fun x => x * (norm_val / Qabs spec_val)) fl_1).
  exists (map (fun x => x / (norm_val / Qabs spec_val) ^ 2) iv_1).
  split; [unfold scale_of; rewrite Z1; reflexivity|].
  split; [exact S1|].
  split.
  - unfold renormalize. rewrite Hn. cbn [bind]. rewrite Hs. cbn [bind].
    unfold scale_of. rewrite Z1. cbn [bind]. rewrite Z2. reflexivity.
  - split; [apply scaled_by_one; exact S1 | apply divided_by_one; exact S2].
Qed.

Lemma C8_unit_scale_witness :
  exists scale normed normed_iv,
    scale_of 2 2 = Ok scale /\
    scale == 1 /\
    renormalize [1; 2; 3; 4] (Some [3; 2; 1; 5]) [1 # 2; 7 # 2]
                [1; 0; 2; 4] [4; 0; 4; 4] = Ok (normed, normed_iv) /\
    Forall2 Qeq normed [1; 0; 2; 4] /\
    Forall2 Qeq normed_iv [4; 0; 4; 4].
Proof.
  apply (C8_unit_scale [1; 2; 3; 4] (Some [3; 2; 1; 5]) [1 # 2; 7 # 2]
                       [1; 0; 2; 4] [4; 0; 4; 4] 2 2);
    reflexivity.
Defined.

(** The claim as stated fails: both medians are -2, the scale is
    -2 / abs(-2) = -1, and the flux comes back negated. *)
Lemma C8_counterexample :
  norm_val_of [1; 2; 3; 4] (Some [- (3); - (2); - (1); - (5)]) [1 # 2; 7 # 2]
  = Ok (- (2)) /\
  spec_val_of [- (1); 0; - (2); - (4)] = Ok (- (2)) /\
  exists scale normed normed_iv,
    scale_of (- (2)) (- (2)) = Ok scale /\
    scale == - (1) /\
    ~ scale == 1 /\
    renormalize [1; 2; 3; 4] (Some [- (3); - (2); - (1); - (5)]) [1 # 2; 7 # 2]
                [- (1); 0; - (2); - (4)] [4; 0; 4; 4] = Ok (normed, normed_iv) /\
    Forall2 Qeq normed [1; 0; 2; 4] /\
    ~ Forall2 Qeq normed [- (1); 0; - (2); - (4)].
Proof.
  split; [vm_compute; reflexivity|].
  split; [vm_compute; reflexivity|].
  eexists _, _, _.
  split; [vm_compute; reflexivity|].
  split; [reflexivity|].
  split; [intros H; vm_compute in H; discriminate H|].
  split; [vm_compute; reflexivity|].
  split; [repeat constructor|].
  intros H. inversion H as [|x y l l' E _]; subst.
  vm_compute in E. discriminate E.
Qed.

(** ** C3: the wavelength grid *)

Module GridProperties.
Import Grid.
Local Open Scope R_scope.

(** [ceil x] is the least integer that is not below [x]. *)
Lemma ceil_bounds (x : R) : IZR (ceil x) - 1 < x <= IZR (ceil x).
Proof.
  unfold ceil, Int_part.
  destruct (archimed (- x)) as [A B].
  rewrite opp_IZR, minus_IZR. lra.
Qed.

Lemma floor_bounds (x : R) : IZR (floor x) <= x < IZR (floor x) + 1.
Proof.
  unfold floor, Int_part.
  destruct (archimed x) as [A B].
  rewrite minus_IZR. lra.
Qed.

(** [np.arange(n)] holds exactly the naturals below [n]. *)
Lemma below_ceil (n : R) (i : nat) : (i < Z.to_nat (ceil n))%nat <-> INR i < n.
Proof.
  destruct (ceil_bounds n) as [Lo Hi].
  rewrite INR_IZR_INZ.
  split; intros H.
  - assert (Hz : (Z.of_nat i <= ceil n - 1)%Z) by lia.
    apply IZR_le in Hz. rewrite minus_IZR in Hz. lra.
  - assert (Hz : (Z.of_nat i < ceil n)%Z) by (apply lt_IZR; lra).
    lia.
Qed.

Lemma get_wave_length (wavemin wavemax dloglam : R) :
  length (get_wave wavemin wavemax dloglam)
  = Z.to_nat (ceil (log10 (wavemax / wavemin) / dloglam)).
Proof.
  unfold get_wave, arange. now rewrite !length_map, length_seq.
Qed.

Lemma get_wave_nth (wavemin wavemax dloglam : R) (i : nat) :
  (i < length (get_wave wavemin wavemax dloglam))%nat ->
  nth i (get_wave wavemin wavemax dloglam) 0
  = pow10 (log10 wavemin + dloglam * INR i).
Proof.
  intros L. rewrite get_wave_length in L.
  unfold get_wave, arange.
  set (f := fun k => pow10 (log10 wavemin + dloglam * k)).
  rewrite (nth_indep _ 0 (f (INR 0)))
    by (rewrite !length_map, length_seq; exact L).
  rewrite (map_nth f), (map_nth INR), seq_nth by exact L.
  reflexivity.
Qed.

(** C3, as the code has it.  For [wavemax > wavemin > 0] and [dloglam > 0]
    the array of [get_wave] has [ceil (log10 (wavemax / wavemin) / dloglam)]
    elements, one for every natural number below that quotient; element [i]
    is [10 ** (log10 wavemin + i * dloglam)], and consecutive elements are in
    the ratio [10 ** dloglam]. *)
Theorem C3_get_wave (wavemin wavemax dloglam : R) :
  0 < wavemin -> wavemin < wavemax -> 0 < dloglam ->
  length (get_wave wavemin wavemax dloglam)
  = Z.to_nat (ceil (log10 (wavemax / wavemin) / dloglam)) /\
  (forall i, (i < length (get_wave wavemin wavemax dloglam))%nat
             <-> INR i < log10 (wavemax / wavemin) / dloglam) /\
  (forall i, (i < length (get_wave wavemin wavemax dloglam))%nat ->
             nth i (get_wave wavemin wavemax dloglam) 0
             = pow10 (log10 wavemin + INR i * dloglam)) /\
  (forall i, (S i < length (get_wave wavemin wavemax dloglam))%nat ->
             nth (S i) (get_wave wavemin wavemax dloglam) 0
             / nth i (get_wave wavemin wavemax dloglam) 0
             = pow10 dloglam).
Proof.
  intros _ _ _.
  split; [apply get_wave_length|].
  split; [intros i; rewrite get_wave_length; apply below_ceil|].
  split.
  - intros i L. rewrite get_wave_nth by exact L. f_equal. ring.
  - intros i L. rewrite !get_wave_nth by lia.
    unfold pow10. rewrite S_INR.
    replace (log10 wavemin + dloglam * (INR i + 1))
      with ((log10 wavemin + dloglam * INR i) + dloglam) by ring.
    rewrite Rpower_plus. field.
    unfold Rpower. apply Rgt_not_eq, exp_pos.
Qed.

Lemma log10_10 : log10 (10 / 1) = 1.
Proof.
  unfold log10. replace (10 / 1) with 10 by field.
  field. apply Rgt_not_eq.
  rewrite <- ln_1. apply ln_increasing; lra.
Qed.

Lemma C3_get_wave_witness :
  length (get_wave 1 10 (2 / 3))
  = Z.to_nat (ceil (log10 (10 / 1) / (2 / 3))) /\
  (forall i, (i < length (get_wave 1 10 (2 / 3)))%nat
             <-> INR i < log10 (10 / 1) / (2 / 3)) /\
  (forall i, (i < length (get_wave 1 10 (2 / 3)))%nat ->
             nth i (get_wave 1 10 (2 / 3)) 0
             = pow10 (log10 1 + INR i * (2 / 3))) /\
  (forall i, (S i < length (get_wave 1 10 (2 / 3)))%nat ->
             nth (S i) (get_wave 1 10 (2 / 3)) 0 / nth i (get_wave 1 10 (2 / 3)) 0
             = pow10 (2 / 3)).
Proof.
  apply (C3_get_wave 1 10 (2 / 3)); lra.
Defined.

(** The claim as stated fails on the length: from 1 to 10 in steps of 2/3
    in the logarithm the quotient is 3/2, its floor is 1, and the array has
    the two elements [10 ** 0] and [10 ** (2/3)]. *)
Lemma C3_counterexample :
  0 < 1 /\ 1 < 10 /\ 0 < 2 / 3 /\
  log10 (10 / 1) / (2 / 3) = 3 / 2 /\
  floor (log10 (10 / 1) / (2 / 3)) = 1%Z /\
  length (get_wave 1 10 (2 / 3)) = 2%nat /\
  length (get_wave 1 10 (2 / 3)) <> Z.to_nat (floor (log10 (10 / 1) / (2 / 3))).
Proof.
  assert (Q : log10 (10 / 1) / (2 / 3) = 3 / 2) by (rewrite log10_10; field).
  assert (F : floor (3 / 2) = 1%Z).
  { symmetry. apply Int_part_spec. simpl. lra. }
  assert (C : ceil (3 / 2) = 2%Z).
  { unfold ceil. replace (Int_part (- (3 / 2))) with (-2)%Z; [reflexivity|].
    apply Int_part_spec. simpl. lra. }
  assert (L : length (get_wave 1 10 (2 / 3)) = 2%nat).
  { rewrite get_wave_length, Q, C. reflexivity. }
  repeat split; try lra; try assumption.
  - rewrite Q. exact F.
  - rewrite L, Q, F. discriminate.
Qed.

End GridProperties.

(** ** C2 on the other paths: fractions that sum to one, conserved flux *)

Ltac bind_as H x Hx := apply bind_Ok in H; destruct H as (x & Hx & H).

Lemma argmax_nonneg (bs : list bool) (k : Z) : argmax bs = Ok k -> (0 <= k)%Z.
Proof.
  unfold argmax. destruct bs; [discriminate|].
  intros H; injection H as <-. lia.
Qed.

Lemma getitem_nonneg {A : Type} (l : list A) (k : Z) (a d : A) :
  (0 <= k)%Z -> getitem l k = Ok a ->
  (Z.to_nat k < length l)%nat /\ nth (Z.to_nat k) l d = a.
Proof.
  unfold getitem. intros P.
  replace (k <? 0)%Z with false by (symmetry; apply Z.ltb_ge; exact P).
  destruct ((0 <=? k) && (k <? Z.of_nat (length l)))%Z; [|discriminate].
  destruct (nth_error l (Z.to_nat k)) as [x|] eqn:E; [|discriminate].
  intros H; injection H as <-. split.
  - apply nth_error_Some. congruence.
  - apply nth_error_nth. exact E.
Qed.

Lemma uniform_step (dl : Q) (w : list Q) (k : Z) (a b : Q) :
  uniform dl w -> (0 <= k)%Z ->
  getitem w k = Ok a -> getitem w (k + 1) = Ok b -> b - a == dl.
Proof.
  intros U P Ga Gb.
  apply (getitem_nonneg _ _ _ 0 P) in Ga. destruct Ga as [_ <-].
  assert (P' : (0 <= k + 1)%Z) by lia.
  apply (getitem_nonneg _ _ _ 0 P') in Gb. destruct Gb as [L <-].
  replace (Z.to_nat (k + 1)) with (S (Z.to_nat k)) in * by lia.
  apply U. exact L.
Qed.

Lemma split_unit (x a b dl : Q) :
  ~ dl == 0 -> b - a == dl -> (x - a) / dl + (b - x) / dl == 1.
Proof.
  intros N E.
  assert (B : b == a + dl) by lra.
  rewrite B. field. exact N.
Qed.

(** On grids of one step, the fractions of [overlap] sum to one on every
    path but one: the branch of line 127 taken while [np.argmax] of
    [w_in > w_out[-1]] is 0, which makes [idx_in] -1. *)
Lemma overlap_fractions_sum (w_in w_out : list Q) (f : fractions) (l_min w_out1 : Q) :
  getitem w_out 0 = Ok l_min -> getitem w_out 1 = Ok w_out1 ->
  uniform (w_out1 - l_min) w_in ->
  overlap w_in w_out = Ok (Some f) ->
  percent_low f + percent_high f == 1 \/
  exists l_max,
    getitem w_out (-1) = Ok l_max /\
    argmax (map (fun w => Qltb l_max w) w_in) = Ok 0%Z /\
    np_max (select (bin_high f) (good_high f)) = Ok (Z.of_nat (length w_out) - 1)%Z.
Proof.
  intros G0 G1 U H. unfold overlap in H.
  rewrite G0 in H. cbn [bind] in H.
  bind_as H l_max Gl. rewrite G1 in H. cbn [bind] in H.
  bind_as H idx_in Hidx. bind_as H w_in_i Gi.
  bind_as H idx_out Hout. bind_as H w_out_o Go. bind_as H w_in_i1 Gi1.
  destruct (Qeq_bool (w_out1 - l_min) 0) eqn:Edl; [discriminate H|].
  assert (N : ~ w_out1 - l_min == 0)
    by (intros E; apply Qeq_bool_iff in E; congruence).
  destruct (negb _ || negb _); [discriminate H|].
  bind_as H lowest Hlow. bind_as H d Hd.
  destruct d as [d_low d_high]. injection H as <-. cbn [percent_low percent_high].
  destruct (lowest =? 0)%Z.
  - bind_as Hd idx_in' Hidx'. bind_as Hd w' Gw'. bind_as Hd a Ha.
    pose proof (argmax_nonneg _ _ Hidx') as P.
    replace (idx_in' =? -1)%Z with false in Hd by (symmetry; apply Z.eqb_neq; lia).
    cbn [bind] in Hd.
    bind_as Hd x Gx. bind_as Hd y Gy. injection Hd as <- <-.
    left. apply split_unit; [exact N|].
    exact (uniform_step _ _ _ _ _ U P Gx Gy).
  - bind_as Hd highest Hhigh.
    destruct (highest =? Z.of_nat (length w_out) - 1)%Z eqn:Eh.
    + apply Z.eqb_eq in Eh. subst highest.
      bind_as Hd a Ha. bind_as Hd w_o Gwo. bind_as Hd x Gx. bind_as Hd y Gy.
      injection Hd as <- <-.
      pose proof (argmax_nonneg _ _ Ha) as P.
      destruct (Z.eq_dec a 0) as [-> | Na].
      * right. exists l_max. repeat split; assumption.
      * left. apply split_unit; [exact N|].
        assert (P' : (0 <= a - 1)%Z) by lia.
        exact (uniform_step _ _ _ _ _ U P' Gx Gy).
    + injection Hd as <- <-.
      left. apply split_unit; [exact N|].
      exact (uniform_step _ _ _ _ _ U (argmax_nonneg _ _ Hidx) Gi Gi1).
Qed.

Lemma sum_add_at (k : nat) (w : Q) (out : list Q) :
  (k < length out)%nat -> sum (add_at k w out) == sum out + w.
Proof.
  revert k; induction out as [|x out IH]; intros k L; simpl in L; [lia|].
  destruct k as [|k]; simpl.
  - ring.
  - rewrite IH by lia. ring.
Qed.

Lemma sum_repeat_0 (n : nat) : sum (repeat 0 n) == 0.
Proof.
  induction n as [|n IH]; simpl; [reflexivity|]. rewrite IH. ring.
Qed.

Lemma sum_fold_add_at (ps : list (Z * Q)) : forall out,
  (forall p, In p ps -> (Z.to_nat (fst p) < length out)%nat) ->
  sum (fold_left (fun out p => add_at (Z.to_nat (fst p)) (snd p) out) ps out)
  == sum out + sum (map snd ps).
Proof.
  induction ps as [|p ps IH]; intros out B; simpl.
  - ring.
  - rewrite IH.
    + rewrite sum_add_at by (apply B; left; reflexivity). ring.
    + intros q Hq. rewrite add_at_length. apply B. right. exact Hq.
Qed.

Lemma fold_max_init (x : list Z) : forall init, (init <= fold_left Z.max x init)%Z.
Proof.
  induction x as [|b x IH]; intros init; simpl; [lia|].
  specialize (IH (Z.max init b)). lia.
Qed.

Lemma fold_max_In (x : list Z) : forall init b, In b x -> (b <= fold_left Z.max x init)%Z.
Proof.
  induction x as [|c x IH]; intros init b I; simpl in I; [contradiction|].
  destruct I as [E|I]; simpl.
  - subst c. pose proof (fold_max_init x (Z.max init b)). lia.
  - apply IH. exact I.
Qed.

Lemma map_snd_combine {A B : Type} (xs : list A) : forall ys : list B,
  length xs = length ys -> map snd (combine xs ys) = ys.
Proof.
  induction xs as [|x xs IH]; intros [|y ys] L; simpl in *; try discriminate;
    [reflexivity|].
  f_equal. apply IH. lia.
Qed.

(** [np.bincount] distributes the weights over the bins and loses none. *)
Lemma bincount_sum (x : list Z) (w : list Q) (n : nat) (out : list Q) :
  bincount x w n = Ok out -> sum out == sum w.
Proof.
  unfold bincount.
  destruct (existsb (fun b => (b <? 0)%Z) x) eqn:Neg; [discriminate|].
  destruct (length x =? length w)%nat eqn:L; [|discriminate].
  apply Nat.eqb_eq in L. simpl. intros H; injection H as <-.
  rewrite sum_fold_add_at.
  - rewrite sum_repeat_0, map_snd_combine by exact L. ring.
  - intros [b q] I. apply in_combine_l in I. simpl fst.
    rewrite repeat_length.
    assert (P : (0 <= b)%Z).
    { destruct (Z.ltb_spec b 0) as [Lt|Ge]; [|exact Ge].
      assert (C : existsb (fun b => (b <? 0)%Z) x = true).
      { apply existsb_exists. exists b. split; [exact I|]. apply Z.ltb_lt. exact Lt. }
      congruence. }
    pose proof (fold_max_In x (-1)%Z b I). lia.
Qed.

Lemma sum_zip_plus (xs : list Q) : forall ys, length xs = length ys ->
  sum (zip_with Qplus xs ys) == sum xs + sum ys.
Proof.
  induction xs as [|x xs IH]; intros [|y ys] L; simpl in *; try discriminate.
  - ring.
  - rewrite IH by lia. ring.
Qed.

Lemma sum_scaled (c : Q) (xs : list Q) : sum (map (fun x => x * c) xs) == sum xs * c.
Proof.
  induction xs as [|x xs IH]; simpl; [ring|]. rewrite IH. ring.
Qed.

Lemma select_all {A : Type} (xs : list A) : forall m,
  forallb (fun b => b) m = true -> length xs = length m -> select xs m = xs.
Proof.
  induction xs as [|x xs IH]; intros [|b m] F L; simpl in *; try discriminate;
    [reflexivity|].
  apply andb_true_iff in F. destruct F as [-> F].
  f_equal. apply IH; [exact F | lia].
Qed.

Lemma mask_index_Ok {A : Type} (xs : list A) (m : list bool) (ys : list A) :
  mask_index xs m = Ok ys -> length xs = length m /\ ys = select xs m.
Proof.
  unfold mask_index. destruct (length xs =? length m)%nat eqn:L; [|discriminate].
  apply Nat.eqb_eq in L. intros H; injection H as <-. split; [exact L|reflexivity].
Qed.

(** When every sample falls into the grid with both its bins and the
    fractions sum to one, the output flux sums to the input flux. *)
Lemma accumulate_conserves (f : fractions) (n : nat) (fl var fl_out vl vh : list Q) :
  (2 <= n)%nat ->
  accumulate f n fl var = Ok (fl_out, vl, vh) ->
  forallb (fun b => b) (good_low f) = true ->
  forallb (fun b => b) (good_high f) = true ->
  percent_low f + percent_high f == 1 ->
  sum fl_out == sum fl.
Proof.
  intros N H Fl Fh E. unfold accumulate in H.
  bind_as H fl_low Hfl. bind_as H c_low Hcl.
  bind_as H fl_high Hfh. bind_as H c_high Hch.
  bind_as H v_low Hvl. bind_as H var_low Hvar_l.
  bind_as H v_high Hvh. bind_as H var_high Hvar_h.
  bind_as H fo Hfo. injection H as -> _ _.
  apply mask_index_Ok in Hfl, Hfh.
  destruct Hfl as [Ll ->], Hfh as [Lh ->].
  rewrite (select_all _ _ Fl Ll) in Hcl. rewrite (select_all _ _ Fh Lh) in Hch.
  pose proof (bincount_length _ _ _ _ Hcl) as Lcl.
  pose proof (bincount_length _ _ _ _ Hch) as Lch.
  apply bincount_sum in Hcl, Hch.
  rewrite sum_scaled in Hcl, Hch.
  assert (S2 : sum fl_out == sum c_low + sum c_high).
  { unfold broadcast2 in Hfo.
    destruct (length c_low =? length c_high)%nat eqn:L.
    - apply Nat.eqb_eq in L. injection Hfo as <-. apply sum_zip_plus. exact L.
    - exfalso.
      destruct c_low as [|x [|x' c_low]]; simpl in Lcl; try lia.
      destruct c_high as [|y [|y' c_high]]; simpl in Lch; try lia.
      discriminate Hfo. }
  rewrite S2, Hcl, Hch.
  rewrite <- Qmult_plus_distr_r, E. ring.
Qed.

Lemma overlap_grid_length (w_in w_out : list Q) (f : fractions) :
  overlap w_in w_out = Ok (Some f) -> (2 <= length w_out)%nat.
Proof.
  unfold overlap. intros H.
  bind_as H l_min G0. bind_as H l_max Gl. bind_as H w_out1 G1.
  apply (getitem_nonneg _ _ _ 0) in G1; [|lia].
  destruct G1 as [L _]. simpl in L. lia.
Qed.

(** Flux conservation for the rebinner on the paths where the fractions sum
    to one: with flux and inverse variance in distinct arrays and every
    sample inside the grid with both its bins, the returned flux sums to the
    input flux. *)
Lemma rebin_conserves_flux (w_in w_out fl iv : loc) (fl_idx : Z) (s s' : store)
  (fl_out iv_out : list Q) (mask : list bool) (f : fractions) :
  fl <> iv ->
  rebin_to_common w_in w_out fl iv fl_idx s
  = (Ok [Some (FloatArr fl_out); Some (FloatArr iv_out); Some (BoolArr mask)], s') ->
  overlap (as_float (s w_in)) (as_float (s w_out)) = Ok (Some f) ->
  forallb (fun b => b) (good_low f) = true ->
  forallb (fun b => b) (good_high f) = true ->
  percent_low f + percent_high f == 1 ->
  sum fl_out == sum (as_float (s fl)).
Proof.
  intros D H Hov Fl Fh E.
  apply returned_tuple in H.
  destruct H as (f' & vl & vh & vo & Hov' & Hs & Hacc & _).
  rewrite Hov in Hov'. injection Hov' as <-.
  subst s'. rewrite (upd_other _ _ _ _ D) in Hacc.
  eapply accumulate_conserves; try eassumption.
  eapply overlap_grid_length. exact Hov.
Qed.

(** Three samples inside a six-bin grid, on the generic path: the fractions
    are 1/2 and 1/2 and the flux 3 is conserved. *)
Example inside_grid_conserved :
  exists f fl_out iv_out mask s',
    overlap [3 # 2; 5 # 2; 7 # 2] [0; 1; 2; 3; 4; 5] = Ok (Some f) /\
    percent_low f + percent_high f == 1 /\
    rebin_call [3 # 2; 5 # 2; 7 # 2] [0; 1; 2; 3; 4; 5] [1; 1; 1]
               (FloatArr [1; 1; 1]) 0
    = (Ok [Some (FloatArr fl_out); Some (FloatArr iv_out); Some (BoolArr mask)], s') /\
    Forall2 Qeq fl_out [0; 1 # 2; 1; 1; 1 # 2; 0] /\
    sum fl_out == sum [1; 1; 1].
Proof.
  eexists _, _, _, _, _.
  split; [vm_compute; reflexivity|].
  split; [reflexivity|].
  split; [vm_compute; reflexivity|].
  split; [repeat constructor | reflexivity].
Qed.

(** * Further properties *)

(** ** The wavelength grid: when it is empty *)

Module GridBounds.
Import Grid.
Local Open Scope R_scope.

Lemma ln_10_pos : 0 < ln 10.
Proof. rewrite <- ln_1. apply ln_increasing; lra. Qed.

Lemma log10_ratio (a b : R) : 0 < a -> 0 < b -> log10 (b / a) = log10 b - log10 a.
Proof.
  intros Pa Pb. unfold log10. change (b / a) with (b * / a).
  rewrite ln_mult by (try apply Rinv_0_lt_compat; assumption).
  rewrite ln_Rinv by exact Pa.
  field. apply Rgt_not_eq, ln_10_pos.
Qed.

Lemma log10_lt (a b : R) : 0 < a -> a < b -> log10 a < log10 b.
Proof.
  intros Pa L. unfold log10.
  apply Rmult_lt_compat_r; [apply Rinv_0_lt_compat, ln_10_pos|].
  apply ln_increasing; assumption.
Qed.

Lemma length_is_ceil (wavemin wavemax dloglam : R) (i : nat) :
  (i < length (get_wave wavemin wavemax dloglam))%nat
  <-> INR i < log10 (wavemax / wavemin) / dloglam.
Proof.
  rewrite GridProperties.get_wave_length. apply GridProperties.below_ceil.
Qed.

(** Edge: when [wavemax] does not exceed [wavemin] the grid is empty. *)
Theorem get_wave_empty (wavemin wavemax dloglam : R) :
  0 < wavemax -> wavemax <= wavemin -> 0 < dloglam ->
  get_wave wavemin wavemax dloglam = [].
Proof.
  intros Pm L Pd.
  apply length_zero_iff_nil.
  destruct (length (get_wave wavemin wavemax dloglam)) as [|n] eqn:E;
    [reflexivity|].
  exfalso.
  assert (Li : (0 < length (get_wave wavemin wavemax dloglam))%nat) by lia.
  apply length_is_ceil in Li. simpl in Li.
  rewrite log10_ratio in Li by lra.
  assert (B : log10 wavemax <= log10 wavemin).
  { destruct L as [L | ->]; [left; apply log10_lt; assumption | right; reflexivity]. }
  assert (C : (log10 wavemax - log10 wavemin) / dloglam <= 0).
  { unfold Rdiv. rewrite <- (Rmult_0_l (/ dloglam)).
    apply Rmult_le_compat_r; [left; apply Rinv_0_lt_compat; exact Pd | lra]. }
  lra.
Qed.

Lemma get_wave_empty_witness : get_wave 10 10 (1 / 10000) = [].
Proof. apply get_wave_empty; lra. Defined.

End GridBounds.

(** ** The rebinner: shapes, edges and signs *)

(** Whatever [rebin_to_common] returns is either the pair [(None, None)]
    or three arrays, each with one entry for every bin of [w_out]; there is
    no other shape. *)
Theorem rebin_result_shape (w_in w_out fl iv : loc) (fl_idx : Z) (s s' : store)
  (t : pytuple) :
  rebin_to_common w_in w_out fl iv fl_idx s = (Ok t, s') ->
  t = [None; None] \/
  exists fl_out iv_out mask,
    t = [Some (FloatArr fl_out); Some (FloatArr iv_out); Some (BoolArr mask)] /\
    (2 <= length (as_float (s w_out)))%nat /\
    length fl_out = length (as_float (s w_out)) /\
    length iv_out = length (as_float (s w_out)) /\
    length mask = length (as_float (s w_out)).
Proof.
  intros H. apply rebin_to_common_Ok in H.
  destruct H as [[-> _] | (f & fl_out & vl & vh & Hov & Hs & Hacc & Hfin)];
    [left; reflexivity|right].
  apply finish_Ok in Hfin.
  destruct Hfin as (var_out & iv_masked & Ln & Hv & Hm & ->).
  pose proof (accumulate_lengths _ _ _ _ _ _ _ _ Hacc Hv) as Lv.
  assert (Lmask : length (binary_erosion (map nonzero fl_out)) = length fl_out)
    by (rewrite binary_erosion_length, length_map; reflexivity).
  apply broadcast2_same_length in Hm;
    [|unfold invert_back; rewrite length_map; lia].
  exists fl_out, iv_masked, (binary_erosion (map nonzero fl_out)).
  split; [reflexivity|].
  split; [eapply overlap_grid_length; exact Hov|].
  split; [exact Ln|].
  split; [|lia].
  subst iv_masked. rewrite zip_with_length;
    unfold invert_back; rewrite length_map; lia.
Qed.

Lemma rebin_result_shape_witness :
  exists t s',
    rebin_call [3 # 2; 5 # 2; 7 # 2] [0; 1; 2; 3; 4; 5] [1; 1; 1]
               (FloatArr [1; 1; 1]) 0 = (Ok t, s') /\
    (t = [None; None] \/
     exists fl_out iv_out mask,
       t = [Some (FloatArr fl_out); Some (FloatArr iv_out); Some (BoolArr mask)] /\
       (2 <= 6)%nat /\ length fl_out = 6%nat /\ length iv_out = 6%nat /\
       length mask = 6%nat).
Proof.
  eexists _, _.
  match goal with |- ?run /\ _ => assert (H : run) by (vm_compute; reflexivity) end.
  split; [exact H|].
  exact (rebin_result_shape _ _ _ _ _ _ _ _ H).
Defined.

(** The erosion exactly: a bin of the returned mask is set if and only if
    its own accumulated flux and the flux of each neighbouring bin that
    exists are nonzero. *)
Theorem mask_set_iff (w_in w_out fl iv : loc) (fl_idx : Z) (s s' : store)
  (fl_out iv_out : list Q) (mask : list bool) (k : nat) :
  rebin_to_common w_in w_out fl iv fl_idx s
  = (Ok [Some (FloatArr fl_out); Some (FloatArr iv_out); Some (BoolArr mask)], s') ->
  (k < length fl_out)%nat ->
  (nth k mask false = true <->
   forall j, (j < length fl_out)%nat -> j = k \/ S j = k \/ j = S k ->
             ~ nth j fl_out 0 == 0).
Proof.
  intros H L. apply returned_tuple in H.
  destruct H as (f & vl & vh & var_out & _ & _ & _ & _ & _ & -> & _).
  rewrite binary_erosion_nth by (rewrite length_map; exact L).
  rewrite (nth_map_nonzero _ k) by exact L.
  split.
  - intros H j Lj Adj.
    apply andb_true_iff in H. destruct H as [H Hnext].
    apply andb_true_iff in H. destruct H as [Hprev Hk].
    apply nonzero_true.
    destruct Adj as [-> | [<- | ->]].
    + exact Hk.
    + rewrite nth_map_nonzero in Hprev by exact Lj. exact Hprev.
    + rewrite nth_map_nonzero in Hnext by exact Lj. exact Hnext.
  - intros H.
    apply andb_true_iff. split; [apply andb_true_iff; split|].
    + destruct k as [|j]; [reflexivity|].
      rewrite nth_map_nonzero by lia. apply nonzero_true, H; [lia | auto].
    + apply nonzero_true, H; [exact L | auto].
    + destruct (Nat.lt_ge_cases (S k) (length fl_out)) as [Ln|Ln].
      * rewrite nth_map_nonzero by exact Ln. apply nonzero_true, H; [exact Ln | auto].
      * apply nth_overflow. rewrite length_map. exact Ln.
Qed.

Lemma mask_set_iff_witness :
  exists fl_out iv_out mask s',
    rebin_call [3 # 2; 5 # 2; 7 # 2] [0; 1; 2; 3; 4; 5] [1; 1; 1]
               (FloatArr [1; 1; 1]) 0
    = (Ok [Some (FloatArr fl_out); Some (FloatArr iv_out); Some (BoolArr mask)], s') /\
    (nth 2 mask false = true <->
     forall j, (j < length fl_out)%nat -> j = 2%nat \/ S j = 2%nat \/ j = 3%nat ->
               ~ nth j fl_out 0 == 0).
Proof.
  eexists _, _, _, _.
  match goal with |- ?run /\ _ => assert (H : run) by (vm_compute; reflexivity) end.
  split; [exact H|].
  apply (mask_set_iff _ _ _ _ _ _ _ _ _ _ 2 H). simpl. lia.
Defined.

Lemma getitem_error {A : Type} (l : list A) (k : Z) (e : exn) :
  getitem l k = Raise e -> e = IndexError.
Proof.
  unfold getitem.
  destruct (_ && _)%bool; [destruct (nth_error _ _)|]; intros H;
    try discriminate H; injection H as <-; reflexivity.
Qed.

(** Edge: an input grid of a single sample cannot be rebinned; the read of
    [w_in[idx_in + 1]] (line 96), if not an earlier read of [w_out], raises
    [IndexError], and no array is written. *)
Theorem single_sample_raises (w_in w_out fl iv : loc) (fl_idx : Z) (s : store) :
  length (as_float (s w_in)) = 1%nat ->
  rebin_to_common w_in w_out fl iv fl_idx s = (Raise IndexError, s).
Proof.
  intros L. unfold rebin_to_common. rewrite L. cbn [Z.of_nat Pos.of_succ_nat Z.ltb Z.compare Pos.compare Pos.compare_cont].
  destruct (as_float (s w_in)) as [|x [|y rest]]; try discriminate L.
  assert (E : overlap [x] (as_float (s w_out)) = Raise IndexError).
  { unfold overlap.
    destruct (getitem (as_float (s w_out)) 0) as [l_min|e] eqn:G0;
      [|apply getitem_error in G0; subst e; reflexivity].
    cbn [bind].
    destruct (getitem (as_float (s w_out)) (-1)) as [l_max|e] eqn:Gl;
      [|apply getitem_error in Gl; subst e; reflexivity].
    cbn [bind].
    destruct (getitem (as_float (s w_out)) 1) as [w1|e] eqn:G1;
      [|apply getitem_error in G1; subst e; reflexivity].
    cbn [bind map].
    replace (argmax [Qltb l_min x]) with (Ok (A := Z) 0%Z)
      by (unfold argmax; simpl; destruct (Qltb l_min x); reflexivity).
    cbn [bind]. change (getitem [x] 0) with (Ok x). cbn [bind].
    destruct (argmax _) as [idx_out|e] eqn:Ea.
    - cbn [bind].
      destruct (getitem (as_float (s w_out)) idx_out) as [w_o|e] eqn:Go;
        [|apply getitem_error in Go; subst e; reflexivity].
      reflexivity.
    - exfalso. destruct (as_float (s w_out)); [discriminate G0 | discriminate Ea]. }
  rewrite E. reflexivity.
Qed.

Lemma single_sample_raises_witness :
  rebin_call [3 # 2] [0; 1; 2; 3] [1] (FloatArr [1]) 0
  = (Raise IndexError, fresh_store [3 # 2] [0; 1; 2; 3] [1] (FloatArr [1])).
Proof.
  apply (single_sample_raises 0%nat 1%nat 2%nat 3%nat 0). reflexivity.
Defined.

Lemma Forall_select {A : Type} (P : A -> Prop) (xs : list A) : forall m,
  Forall P xs -> Forall P (select xs m).
Proof.
  induction xs as [|x xs IH]; intros [|b m] H; simpl; try constructor.
  inversion H as [|? ? Px Pxs]; subst.
  destruct b; [constructor; [exact Px|]|]; apply IH; exact Pxs.
Qed.

Lemma add_at_nonneg (k : nat) (w : Q) (out : list Q) :
  0 <= w -> Forall (Qle 0) out -> Forall (Qle 0) (add_at k w out).
Proof.
  intros W. revert k; induction out as [|x out IH]; intros k H; simpl;
    [constructor|].
  inversion H as [|? ? Px Pout]; subst.
  destruct k as [|k]; constructor; try assumption.
  - lra.
  - apply IH. exact Pout.
Qed.

Lemma bincount_nonneg (x : list Z) (w : list Q) (n : nat) (out : list Q) :
  bincount x w n = Ok out -> Forall (Qle 0) w -> Forall (Qle 0) out.
Proof.
  unfold bincount.
  destruct (existsb _ x); [discriminate|].
  destruct (negb _); [discriminate|].
  intros H W; injection H as <-.
  assert (P : forall p, In p (combine x w) -> 0 <= snd p).
  { intros [b q] I. apply in_combine_r in I.
    rewrite Forall_forall in W. apply W. exact I. }
  assert (Z0 : Forall (Qle 0) (repeat 0 (Nat.max n (Z.to_nat (fold_left Z.max x (-1)%Z + 1))))).
  { apply Forall_forall. intros y I. apply repeat_spec in I. subst y. apply Qle_refl. }
  revert P Z0. generalize (repeat 0 (Nat.max n (Z.to_nat (fold_left Z.max x (-1)%Z + 1)))).
  induction (combine x w) as [|p ps IH]; intros acc P A; simpl; [exact A|].
  apply IH.
  - intros q I. apply P. right. exact I.
  - apply add_at_nonneg; [apply P; left; reflexivity | exact A].
Qed.

Lemma broadcast_plus_nonneg (xs ys zs : list Q) :
  broadcast2 Qplus xs ys = Ok zs ->
  Forall (Qle 0) xs -> Forall (Qle 0) ys -> Forall (Qle 0) zs.
Proof.
  unfold broadcast2. intros H X Y.
  assert (Zip : forall a b, Forall (Qle 0) a -> Forall (Qle 0) b ->
                            Forall (Qle 0) (zip_with Qplus a b)).
  { induction a as [|u a IH]; intros [|v b] Ha Hb; simpl; try constructor.
    - inversion Ha; inversion Hb; subst. lra.
    - inversion Ha; inversion Hb; subst. apply IH; assumption. }
  destruct (length xs =? length ys)%nat.
  - injection H as <-. apply Zip; assumption.
  - destruct xs as [|x [|x' xs]].
    + destruct ys as [|y [|y' ys]]; try discriminate H.
      injection H as <-. constructor.
    + injection H as <-. inversion X; subst.
      apply Forall_map. eapply Forall_impl; [|exact Y]. intros a Ha. simpl. lra.
    + destruct ys as [|y [|y' ys]]; try discriminate H.
      injection H as <-. inversion Y; subst.
      change (Forall (Qle 0) (map (fun a => a + y) (x :: x' :: xs))).
      apply Forall_map. eapply Forall_impl; [|exact X]. intros a Ha. simpl. lra.
Qed.

Lemma reciprocal_nonneg (x : Q) : 0 <= x -> 0 <= 1 / x.
Proof.
  intros P. unfold Qdiv. rewrite Qmult_1_l. apply Qinv_le_0_compat. exact P.
Qed.

Lemma invert_nonzero_nonneg (a : ndarray) :
  Forall (Qle 0) (as_float a) -> Forall (Qle 0) (as_float (invert_nonzero a)).
Proof.
  destruct a as [xs|bs]; simpl; intros H; [|exact H].
  apply Forall_map. eapply Forall_impl; [|exact H].
  intros x P. simpl. destruct (nonzero x); [apply reciprocal_nonneg|]; exact P.
Qed.

Lemma accumulate_variances (f : fractions) (n : nat) (fl var fl_out vl vh : list Q) :
  accumulate f n fl var = Ok (fl_out, vl, vh) ->
  bincount (select (bin_low f) (good_low f))
           (map (fun x => x * percent_low f ^ 2) (select var (good_low f))) n = Ok vl /\
  bincount (select (bin_high f) (good_high f))
           (map (fun x => x * percent_high f ^ 2) (select var (good_high f))) n = Ok vh.
Proof.
  unfold accumulate. intros H.
  bind_as H fl_low Hfl. bind_as H c_low Hcl.
  bind_as H fl_high Hfh. bind_as H c_high Hch.
  bind_as H v_low Hvl. bind_as H var_low Hvar_l.
  bind_as H v_high Hvh. bind_as H var_high Hvar_h.
  bind_as H fo Hfo. injection H as _ <- <-.
  apply mask_index_Ok in Hvl, Hvh.
  destruct Hvl as [_ ->], Hvh as [_ ->].
  split; assumption.
Qed.

Lemma scaled_by_square_nonneg (c : Q) (xs : list Q) :
  Forall (Qle 0) xs -> Forall (Qle 0) (map (fun x => x * c ^ 2) xs).
Proof.
  intros H. apply Forall_map. eapply Forall_impl; [|exact H].
  intros x P. simpl. apply Qmult_le_0_compat; [exact P|].
  change (0 <= c * c). nra.
Qed.

(** Variance propagation keeps the sign: when no entry of the input
    inverse variance is negative, no entry of the returned inverse variance
    is, whatever the overlap fractions are. *)
Theorem returned_iv_nonnegative (w_in w_out fl iv : loc) (fl_idx : Z) (s s' : store)
  (fl_out iv_out : list Q) (mask : list bool) :
  rebin_to_common w_in w_out fl iv fl_idx s
  = (Ok [Some (FloatArr fl_out); Some (FloatArr iv_out); Some (BoolArr mask)], s') ->
  Forall (Qle 0) (as_float (s iv)) ->
  Forall (Qle 0) iv_out.
Proof.
  intros H P. apply returned_tuple in H.
  destruct H as (f & vl & vh & var_out & _ & -> & Hacc & Hv & _ & _ & ->).
  rewrite upd_same in Hacc.
  apply accumulate_variances in Hacc. destruct Hacc as [Hl Hh].
  apply invert_nonzero_nonneg in P.
  assert (V : Forall (Qle 0) var_out).
  { eapply broadcast_plus_nonneg; [exact Hv | |].
    - eapply bincount_nonneg; [exact Hl|].
      apply scaled_by_square_nonneg, Forall_select, P.
    - eapply bincount_nonneg; [exact Hh|].
      apply scaled_by_square_nonneg, Forall_select, P. }
  assert (I : Forall (Qle 0) (invert_back var_out)).
  { unfold invert_back. apply Forall_map. eapply Forall_impl; [|exact V].
    intros x Px. simpl. destruct (above_floor x); [apply reciprocal_nonneg|]; exact Px. }
  revert I. generalize (invert_back var_out). clear.
  intros l. revert mask. induction l as [|x l IH]; intros [|m mask] H; simpl;
    try constructor.
  - inversion H; subst. apply Qmult_le_0_compat; [assumption|].
    destruct m; simpl; lra.
  - inversion H; subst. apply IH. assumption.
Qed.

Lemma returned_iv_nonnegative_witness :
  exists fl_out iv_out mask s',
    rebin_call [3 # 2; 5 # 2] [0; 1; 2; 3] [1; 1] (FloatArr [1; 1]) 0
    = (Ok [Some (FloatArr fl_out); Some (FloatArr iv_out); Some (BoolArr mask)], s') /\
    Forall (Qle 0) iv_out.
Proof.
  eexists _, _, _, _.
  match goal with |- ?run /\ _ => assert (H : run) by (vm_compute; reflexivity) end.
  split; [exact H|].
  refine (returned_iv_nonnegative 0%nat 1%nat 2%nat 3%nat 0
            (fresh_store [3 # 2; 5 # 2] [0; 1; 2; 3] [1; 1] (FloatArr [1; 1]))
            _ _ _ _ H _).
  repeat constructor; discriminate.
Defined.

Lemma getitem_in_range {A : Type} (l : list A) (k : Z) :
  (- Z.of_nat (length l) <= k < Z.of_nat (length l))%Z ->
  exists x, getitem l k = Ok x.
Proof.
  intros R. unfold getitem.
  set (k' := if (k <? 0)%Z then (k + Z.of_nat (length l))%Z else k).
  assert (B : (0 <= k' < Z.of_nat (length l))%Z).
  { unfold k'. destruct (Z.ltb_spec k 0); lia. }
  replace ((0 <=? k') && (k' <? Z.of_nat (length l)))%Z with true.
  - destruct (nth_error l (Z.to_nat k')) as [x|] eqn:E; [exists x; reflexivity|].
    apply nth_error_None in E. lia.
  - symmetry. apply andb_true_iff. split; [apply Z.leb_le | apply Z.ltb_lt]; lia.
Qed.

Lemma find_true_bound (bs : list bool) (k : nat) :
  find_true bs = Some k -> (k < length bs)%nat.
Proof.
  revert k; induction bs as [|b bs IH]; intros k; simpl; [discriminate|].
  destruct b.
  - intros H; injection H as <-. lia.
  - destruct (find_true bs) as [j|]; simpl; [|discriminate].
    intros H; injection H as <-. specialize (IH j eq_refl). lia.
Qed.

Lemma argmax_range (bs : list bool) :
  bs <> [] -> exists k, argmax bs = Ok k /\ (0 <= k < Z.of_nat (length bs))%Z.
Proof.
  intros N. destruct bs as [|b bs]; [contradiction|].
  unfold argmax. eexists. split; [reflexivity|].
  destruct (find_true (b :: bs)) as [k|] eqn:E.
  - apply find_true_bound in E. lia.
  - simpl. lia.
Qed.

Lemma find_true_none (bs : list bool) :
  Forall (fun b => b = false) bs -> find_true bs = None.
Proof.
  induction 1 as [|b bs -> _ IH]; simpl; [reflexivity|]. now rewrite IH.
Qed.

Lemma bins_below_grid (l_min dl : Q) (w_in : list Q) :
  0 < dl -> Forall (fun w => w < l_min) w_in ->
  np_any (map in_grid (map (fun w => Qfloor ((w - l_min) / dl)) w_in)) = false.
Proof.
  intros P. unfold np_any.
  induction 1 as [|w w_in Hw _ IH]; cbn [map existsb]; [reflexivity|].
  rewrite IH, orb_false_r.
  assert (N : (w - l_min) / dl < 0).
  { apply Qlt_shift_div_r; [exact P | lra]. }
  assert (F : (Qfloor ((w - l_min) / dl) < 0)%Z).
  { rewrite Zlt_Qlt. eapply Qle_lt_trans; [apply Qfloor_le | exact N]. }
  unfold in_grid. rewrite Z.geb_leb.
  replace (0 <=? Qfloor ((w - l_min) / dl))%Z with false; [reflexivity|].
  symmetry. apply Z.leb_gt. exact F.
Qed.

(** Edge: an input grid (of at least two samples) that lies entirely below
    the first bin of the output grid is reported as the pair
    [(None, None)] (line 108), and no array is written. *)
Theorem below_grid_returns_none (w_in w_out fl iv : loc) (fl_idx : Z) (s : store)
  (l_min w_out1 : Q) :
  getitem (as_float (s w_out)) 0 = Ok l_min ->
  getitem (as_float (s w_out)) 1 = Ok w_out1 ->
  l_min < w_out1 ->
  (2 <= length (as_float (s w_in)))%nat ->
  Forall (fun w => w < l_min) (as_float (s w_in)) ->
  rebin_to_common w_in w_out fl iv fl_idx s = (Ok [None; None], s).
Proof.
  intros G0 G1 Pdl L B.
  unfold rebin_to_common.
  replace (Z.of_nat (length (as_float (s w_in))) <? 1)%Z with false
    by (symmetry; apply Z.ltb_ge; lia).
  assert (E : overlap (as_float (s w_in)) (as_float (s w_out)) = Ok None);
    [|rewrite E; reflexivity].
  unfold overlap. rewrite G0. cbn [bind].
  assert (Lo : (2 <= length (as_float (s w_out)))%nat).
  { apply (getitem_nonneg _ _ _ 0) in G1; [|lia]. destruct G1 as [G1 _].
    simpl in G1. lia. }
  destruct (getitem_in_range (as_float (s w_out)) (-1)) as [l_max Gl]; [lia|].
  rewrite Gl. cbn [bind]. rewrite G1. cbn [bind].
  destruct (as_float (s w_in)) as [|x0 [|x1 rest]] eqn:Ew; simpl in L; try lia.
  assert (A0 : argmax (map (fun w => Qltb l_min w) (x0 :: x1 :: rest)) = Ok 0%Z).
  { unfold argmax. cbn [map]. rewrite <- (map_cons (fun w => Qltb l_min w)).
    rewrite <- (map_cons (fun w => Qltb l_min w)).
    rewrite find_true_none; [reflexivity|].
    apply Forall_map. eapply Forall_impl; [|exact B].
    intros w Hw. simpl. apply Qltb_false. apply Qlt_le_weak. exact Hw. }
  rewrite A0. cbn [bind]. rewrite getitem_0. cbn [bind].
  destruct (argmax_range (map (fun w => Qltb x0 w) (as_float (s w_out))))
    as (idx_out & Ea & Ri).
  { intros E. apply map_eq_nil in E. rewrite E in Lo. simpl in Lo. lia. }
  rewrite Ea. cbn [bind]. rewrite length_map in Ri.
  destruct (getitem_in_range (as_float (s w_out)) idx_out) as [w_o Go]; [lia|].
  rewrite Go. cbn [bind].
  rewrite (getitem_app [x0] x1 rest : getitem (x0 :: x1 :: rest) (0 + 1) = Ok x1).
  cbn [bind].
  replace (Qeq_bool (w_out1 - l_min) 0) with false.
  - rewrite bins_below_grid by (try exact B; lra). reflexivity.
  - symmetry. destruct (Qeq_bool (w_out1 - l_min) 0) eqn:E; [|reflexivity].
    apply Qeq_bool_iff in E. lra.
Qed.

Lemma below_grid_returns_none_witness :
  rebin_call [- (7 # 2); - (5 # 2)] [0; 1; 2; 3] [1; 1] (FloatArr [1; 1]) 0
  = (Ok [None; None],
     fresh_store [- (7 # 2); - (5 # 2)] [0; 1; 2; 3] [1; 1] (FloatArr [1; 1])).
Proof.
  apply (below_grid_returns_none 0%nat 1%nat 2%nat 3%nat 0 _ 0 1).
  - reflexivity.
  - reflexivity.
  - reflexivity.
  - simpl. lia.
  - repeat constructor.
Defined.

(** ** The noise injector: one output for each object *)

Section NoiseOutputs.

Context {np : Numpy}.

Lemma add_noise_body_Ok (fl_shift w_shift : list (list Q)) (flag : bool) (i : nat)
  (rng : generator) (fl_noisy : list (list Q)) (iv_noisy : list ndarray)
  (st' : loop_state) :
  add_noise_body fl_shift w_shift flag i (rng, fl_noisy, iv_noisy) = Ok st' ->
  exists rng' x v,
    st' = (rng', fl_noisy ++ [x], iv_noisy ++ [v]) /\ iv_dtype flag v.
Proof.
  unfold add_noise_body. intros H.
  bind_as H fl_i Gf.
  destruct flag.
  - destruct (rng_poisson (clip_min0 fl_i) rng) as [k rng1].
    bind_as H w_i Gw. bind_as H x_poisson Hx.
    destruct (rng_uniform _ _ rng1) as [snr rng2].
    destruct (rng_normal _ _ _ rng2) as [noise rng3].
    bind_as H fl_sim Hs. injection H as <-.
    eexists _, _, _. split; [reflexivity|]. simpl. eexists; reflexivity.
  - bind_as H w_i Gw. bind_as H x_poisson Hx.
    destruct (rng_uniform _ _ rng) as [snr rng2].
    destruct (rng_normal _ _ _ rng2) as [noise rng3].
    bind_as H fl_sim Hs. injection H as <-.
    eexists _, _, _. split; [reflexivity|]. simpl. eexists; reflexivity.
Qed.

Lemma add_noise_loop_Ok (fl_shift w_shift : list (list Q)) (flag : bool) :
  forall range rng fl_noisy iv_noisy rng' fl_noisy' iv_noisy',
    add_noise_loop fl_shift w_shift flag range (rng, fl_noisy, iv_noisy)
    = Ok (rng', fl_noisy', iv_noisy') ->
    length fl_noisy' = (length fl_noisy + length range)%nat /\
    length iv_noisy' = (length iv_noisy + length range)%nat /\
    (Forall (iv_dtype flag) iv_noisy -> Forall (iv_dtype flag) iv_noisy').
Proof.
  induction range as [|i range IH]; intros rng fa ia rng' fa' ia' H; simpl in H.
  - injection H as _ <- <-. simpl. repeat split; try lia. auto.
  - bind_as H st Hb.
    apply add_noise_body_Ok in Hb. destruct Hb as (rng1 & x & v & -> & Dv).
    apply IH in H. destruct H as (Lf & Li & D).
    rewrite length_app in Lf, Li. simpl in *.
    repeat split; try lia.
    intros Da. apply D. apply Forall_app. split; [exact Da|].
    constructor; [exact Dv | constructor].
Qed.

(** Whenever [add_noise] returns, it returns one noisy flux array and one
    inverse-variance array for every object of the module-level
    [fl_shift], and the inverse variances are float arrays with the flag on
    and boolean arrays with the flag off. *)
Theorem add_noise_one_per_object (fl_shift w_shift fl : list (list Q)) (seed : Z)
  (flag : bool) (fl_noisy : list (list Q)) (iv_noisy : list ndarray) :
  add_noise fl_shift w_shift fl seed flag = Ok (fl_noisy, iv_noisy) ->
  length fl_noisy = length fl_shift /\
  length iv_noisy = length fl_shift /\
  Forall (iv_dtype flag) iv_noisy.
Proof.
  unfold add_noise. intros H.
  bind_as H st Hl. destruct st as [[rng' fa] ia]. injection H as <- <-.
  apply add_noise_loop_Ok in Hl. destruct Hl as (Lf & Li & D).
  rewrite length_seq in Lf, Li. simpl in Lf, Li.
  repeat split; try assumption. apply D. constructor.
Qed.

Lemma add_noise_loop_app (fl_shift w_shift : list (list Q)) (flag : bool)
  (r1 r2 : list nat) : forall st,
  add_noise_loop fl_shift w_shift flag (r1 ++ r2) st
  = (st' <- add_noise_loop fl_shift w_shift flag r1 st ;;
     add_noise_loop fl_shift w_shift flag r2 st').
Proof.
  induction r1 as [|i r1 IH]; intros st; simpl; [reflexivity|].
  destruct (add_noise_body fl_shift w_shift flag i st) as [st1|e]; simpl;
    [apply IH | reflexivity].
Qed.

(** With the flag off, the loop over a stretch of objects whose arrays are
    shaped alike, whatever comes after the stretch. *)
Lemma add_noise_loop_off_stretch (fl_shift w_shift : list (list Q)) :
  forall mid_f mid_w, Forall2 same_shape mid_f mid_w ->
  forall pre_f pre_w post_f post_w rng fl_noisy iv_noisy,
    fl_shift = pre_f ++ mid_f ++ post_f -> w_shift = pre_w ++ mid_w ++ post_w ->
    length pre_f = length pre_w ->
    exists rng',
      add_noise_loop fl_shift w_shift false
                     (seq (length pre_f) (length mid_f)) (rng, fl_noisy, iv_noisy)
      = Ok (rng',
            fl_noisy ++ zip_with (zip_with Qdiv) mid_f mid_w,
            iv_noisy ++ map (fun f => BoolArr (map nonzero f))
                            (zip_with (zip_with Qdiv) mid_f mid_w)).
Proof.
  induction 1 as [|f w mid_f mid_w Hfw Hmid IH];
    intros pre_f pre_w post_f post_w rng fl_noisy iv_noisy Ef Ew L.
  - exists rng. simpl. now rewrite !app_nil_r.
  - cbn [length seq add_noise_loop].
    assert (Gf : getitem fl_shift (Z.of_nat (length pre_f)) = Ok f)
      by (rewrite Ef; apply getitem_app).
    assert (Gw : getitem w_shift (Z.of_nat (length pre_f)) = Ok w)
      by (rewrite Ew, L; apply getitem_app).
    unfold add_noise_body at 1.
    rewrite Gf. cbn [bind]. rewrite Gw. cbn [bind].
    unfold broadcast2. red in Hfw. rewrite Hfw, Nat.eqb_refl. cbn [bind].
    destruct (rng_uniform _ _ rng) as [snr_choice rng1].
    destruct (rng_normal _ _ _ rng1) as [noise rng2].
    destruct (IH (pre_f ++ [f]) (pre_w ++ [w]) post_f post_w rng2
                 (fl_noisy ++ [zip_with Qdiv f w])
                 (iv_noisy ++ [BoolArr (map nonzero (zip_with Qdiv f w))]))
      as [rng' Hloop].
    + rewrite <- app_assoc. exact Ef.
    + rewrite <- app_assoc. exact Ew.
    + rewrite !length_app. simpl. lia.
    + exists rng'. rewrite length_app in Hloop. simpl in Hloop.
      rewrite Nat.add_1_r in Hloop. cbn [bind]. rewrite Hloop.
      cbn [zip_with map]. now rewrite <- !app_assoc.
Qed.

Lemma getitem_past_end {A : Type} (l : list A) :
  getitem l (Z.of_nat (length l)) = Raise IndexError.
Proof.
  unfold getitem.
  replace (Z.of_nat (length l) <? 0)%Z with false by (symmetry; apply Z.ltb_ge; lia).
  replace (Z.of_nat (length l) <? Z.of_nat (length l))%Z with false
    by (symmetry; apply Z.ltb_ge; lia).
  now rewrite andb_false_r.
Qed.

(** Edge: when the module-level [w_shift] has fewer objects than
    [fl_shift], [add_noise] with the flag off raises [IndexError] at the
    first object without wavelengths (line 192). *)
Theorem add_noise_missing_wavelengths (pre_f : list (list Q)) (f : list Q)
  (rest_f w_shift fl : list (list Q)) (seed : Z) :
  Forall2 same_shape pre_f w_shift ->
  add_noise (pre_f ++ f :: rest_f) w_shift fl seed false = Raise IndexError.
Proof.
  intros H. unfold add_noise.
  rewrite length_app. cbn [length].
  rewrite seq_app. cbn [seq Nat.add].
  rewrite add_noise_loop_app.
  destruct (add_noise_loop_off_stretch (pre_f ++ f :: rest_f) w_shift _ _ H
              [] [] (f :: rest_f) [] (default_rng seed) [] [])
    as [rng' Hloop]; try reflexivity.
  { now rewrite app_nil_r. }
  simpl length in Hloop. rewrite Hloop. cbn [bind add_noise_loop].
  unfold add_noise_body at 1.
  rewrite (getitem_app pre_f f rest_f). cbn [bind].
  rewrite (Forall2_length H), getitem_past_end. reflexivity.
Qed.

Lemma nonzero_quotient (f w : Q) : ~ w == 0 -> nonzero (f / w) = nonzero f.
Proof.
  intros N. destruct (nonzero f) eqn:E.
  - apply nonzero_true. apply nonzero_true in E. intros Z0. apply E.
    assert (X : f == f / w * w) by (field; exact N).
    rewrite X, Z0. ring.
  - apply nonzero_false. apply nonzero_false in E. rewrite E. field. exact N.
Qed.

Lemma mask_of_quotients (f : list Q) : forall w,
  Forall (fun x => ~ x == 0) w ->
  map nonzero (zip_with Qdiv f w) = map nonzero (firstn (length w) f).
Proof.
  induction f as [|a f IH]; intros [|b w] H; simpl; try reflexivity.
  inversion H as [|? ? Nb Nw]; subst.
  rewrite nonzero_quotient by exact Nb. f_equal. apply IH. exact Nw.
Qed.

(** With the flag off and no zero among the rest-frame wavelengths, the
    inverse variance returned for an object is the boolean mask of where its
    deshifted flux [fl_shift[i]] itself is nonzero. *)
Theorem flag_off_mask_of_flux (fl_shift w_shift fl : list (list Q)) (seed : Z)
  (fl_noisy : list (list Q)) (iv_noisy : list ndarray) :
  Forall2 same_shape fl_shift w_shift ->
  Forall (Forall (fun w => ~ w == 0)) w_shift ->
  add_noise fl_shift w_shift fl seed false = Ok (fl_noisy, iv_noisy) ->
  iv_noisy = map (fun f => BoolArr (map nonzero f)) fl_shift.
Proof.
  intros S N H. unfold add_noise in H.
  destruct (add_noise_loop_off fl_shift w_shift _ _ S [] [] (default_rng seed) [] [])
    as [rng' Hloop]; try reflexivity.
  simpl in Hloop. rewrite Hloop in H. cbn [bind] in H. injection H as _ <-.
  clear Hloop. induction S as [|f w fs ws Hfw Hs IH]; simpl; [reflexivity|].
  inversion N as [|? ? Nw Nws]; subst.
  rewrite (IH Nws). f_equal.
  rewrite mask_of_quotients by exact Nw.
  red in Hfw. rewrite <- Hfw, firstn_all. reflexivity.
Qed.

Lemma add_noise_loop_on (fl_shift w_shift : list (list Q)) :
  shape_preserving np ->
  forall rest_f rest_w, Forall2 same_shape rest_f rest_w ->
  forall pre_f pre_w rng fl_noisy iv_noisy,
    fl_shift = pre_f ++ rest_f -> w_shift = pre_w ++ rest_w ->
    length pre_f = length pre_w ->
    exists rng' out_f out_i,
      add_noise_loop fl_shift w_shift true
                     (seq (length pre_f) (length rest_f)) (rng, fl_noisy, iv_noisy)
      = Ok (rng', fl_noisy ++ out_f, iv_noisy ++ out_i) /\
      Forall2 same_shape out_f rest_f /\
      Forall2 (fun v f => exists xs, v = FloatArr xs /\ length xs = length f)
              out_i rest_f.
Proof.
  intros [Sp Sn].
  induction 1 as [|f w rest_f rest_w Hfw Hrest IH];
    intros pre_f pre_w rng fl_noisy iv_noisy Ef Ew L.
  - exists rng, [], []. simpl. rewrite !app_nil_r. repeat split; constructor.
  - cbn [length seq add_noise_loop].
    assert (Gf : getitem fl_shift (Z.of_nat (length pre_f)) = Ok f)
      by (rewrite Ef; apply getitem_app).
    assert (Gw : getitem w_shift (Z.of_nat (length pre_f)) = Ok w)
      by (rewrite Ew, L; apply getitem_app).
    unfold add_noise_body at 1.
    rewrite Gf. cbn [bind].
    pose proof (Sp (clip_min0 f) rng) as Lk.
    destruct (rng_poisson (clip_min0 f) rng) as [k rng0]. simpl in Lk.
    unfold clip_min0 in Lk. rewrite length_map in Lk.
    rewrite Gw. cbn [bind].
    red in Hfw.
    assert (Lx : length (map inject_Z k) = length w)
      by (rewrite length_map; congruence).
    unfold broadcast2 at 1. rewrite Lx, Nat.eqb_refl. cbn [bind].
    destruct (rng_uniform _ _ rng0) as [snr_choice rng1].
    match goal with
    | |- context [rng_normal ?m ?sg ?n rng1] =>
        pose proof (Sn m sg n rng1) as Ln;
        destruct (rng_normal m sg n rng1) as [noise rng2]
    end.
    simpl in Ln.
    assert (Lz : length (zip_with Qdiv (map inject_Z k) w) = length f)
      by (rewrite zip_with_length; congruence).
    unfold broadcast2 at 1. rewrite Lz, Ln, Nat.eqb_refl. cbn [bind].
    match goal with
    | |- context [(rng2, fl_noisy ++ [?x], iv_noisy ++ [?v])] =>
        destruct (IH (pre_f ++ [f]) (pre_w ++ [w]) rng2
                     (fl_noisy ++ [x]) (iv_noisy ++ [v]))
          as (rng' & out_f & out_i & Hloop & Hf & Hi);
        [rewrite <- app_assoc; exact Ef
        |rewrite <- app_assoc; exact Ew
        |rewrite !length_app; simpl; lia|];
        exists rng', (x :: out_f), (v :: out_i)
    end.
    rewrite length_app in Hloop. cbn [length] in Hloop.
    rewrite Nat.add_1_r in Hloop. rewrite Hloop.
    rewrite <- !app_assoc. split; [reflexivity|].
    split; constructor; try assumption.
    + red. rewrite zip_with_length; congruence.
    + eexists. split; [reflexivity|]. rewrite length_map. exact Lz.
Qed.

(** With the flag on, a generator whose draws have the shape asked for, and
    the deshifted arrays shaped alike object by object: whenever [add_noise]
    returns, every noisy flux and every inverse variance has the shape of
    its object. *)
Theorem add_noise_flag_on_shapes (fl_shift w_shift fl : list (list Q)) (seed : Z)
  (fl_noisy : list (list Q)) (iv_noisy : list ndarray) :
  shape_preserving np ->
  Forall2 same_shape fl_shift w_shift ->
  add_noise fl_shift w_shift fl seed true = Ok (fl_noisy, iv_noisy) ->
  Forall2 same_shape fl_noisy fl_shift /\
  Forall2 (fun v f => exists xs, v = FloatArr xs /\ length xs = length f)
          iv_noisy fl_shift.
Proof.
  intros Sp S H. unfold add_noise in H.
  destruct (add_noise_loop_on fl_shift w_shift Sp _ _ S [] [] (default_rng seed) [] [])
    as (rng' & out_f & out_i & Hloop & Hf & Hi); try reflexivity.
  simpl in Hloop. rewrite Hloop in H. cbn [bind] in H.
  injection H as <- <-. split; assumption.
Qed.

End NoiseOutputs.

Lemma lcg_shape_preserving : shape_preserving lcg_numpy.
Proof.
  split; intros; simpl; rewrite length_map; [reflexivity | apply length_seq].
Qed.

Lemma add_noise_one_per_object_witness :
  exists fl_noisy iv_noisy,
    add_noise (np := lcg_numpy) [[2; 0]; [3; 6]] [[1; 2]; [3; 3]] [] 100921 true
    = Ok (fl_noisy, iv_noisy) /\
    length fl_noisy = 2%nat /\ length iv_noisy = 2%nat /\
    Forall (iv_dtype true) iv_noisy.
Proof.
  eexists _, _.
  match goal with |- ?run /\ _ => assert (H : run) by (vm_compute; reflexivity) end.
  split; [exact H|].
  exact (add_noise_one_per_object (np := lcg_numpy) _ _ _ _ _ _ _ H).
Defined.

Lemma add_noise_missing_wavelengths_witness :
  add_noise (np := lcg_numpy) [[2; 0]; [3; 6]] [[1; 2]] [] 100921 false
  = Raise IndexError.
Proof.
  apply (add_noise_missing_wavelengths (np := lcg_numpy) [[2; 0]] [3; 6] [] [[1; 2]]).
  repeat constructor.
Defined.

Lemma flag_off_mask_of_flux_witness :
  exists fl_noisy iv_noisy,
    add_noise (np := lcg_numpy) [[2; 0]; [3; 6]] [[1; 2]; [3; 3]] [] 100921 false
    = Ok (fl_noisy, iv_noisy) /\
    iv_noisy = [BoolArr [true; false]; BoolArr [true; true]].
Proof.
  eexists _, _.
  match goal with |- ?run /\ _ => assert (H : run) by (vm_compute; reflexivity) end.
  split; [exact H|].
  apply (flag_off_mask_of_flux (np := lcg_numpy) _ _ _ _ _ _) in H.
  - exact H.
  - repeat constructor.
  - repeat constructor; discriminate.
Defined.

Lemma add_noise_flag_on_shapes_witness :
  exists fl_noisy iv_noisy,
    add_noise (np := lcg_numpy) [[2; 0]; [3; 6]] [[1; 2]; [3; 3]] [] 100921 true
    = Ok (fl_noisy, iv_noisy) /\
    Forall2 same_shape fl_noisy [[2; 0]; [3; 6]] /\
    Forall2 (fun v f => exists xs, v = FloatArr xs /\ length xs = length f)
            iv_noisy [[2; 0]; [3; 6]].
Proof.
  eexists _, _.
  match goal with |- ?run /\ _ => assert (H : run) by (vm_compute; reflexivity) end.
  split; [exact H|].
  refine (add_noise_flag_on_shapes (np := lcg_numpy) _ _ _ _ _ _
            lcg_shape_preserving _ H).
  repeat constructor.
Defined.

(** ** The deshifter *)

Import Deshift.

Lemma deshift_body_Ok (fl : list (list Q)) (redshifts w_obs : list Q) (i : nat)
  (X W : list (list Q)) (acc' : stacked) :
  deshift_body fl redshifts w_obs i (X, W) = Ok acc' ->
  exists x w, acc' = (X ++ [x], W ++ [w]) /\ deshifted fl redshifts w_obs i x w.
Proof.
  unfold deshift_body. intros H.
  bind_as H z Gz.
  destruct (Qeq_bool (1 + z) 0) eqn:Ez; [discriminate H|].
  bind_as H fl_i Gf. bind_as H med Hm.
  destruct (Qeq_bool med 0) eqn:Em; [discriminate H|].
  bind_as H scaled Hx. injection H as <-.
  eexists _, _. split; [reflexivity|].
  exists z, fl_i, med. repeat split; try assumption.
  - intros E. apply Qeq_bool_iff in E. congruence.
  - intros E. apply Qeq_bool_iff in E. congruence.
Qed.

Lemma deshift_loop_Ok (fl : list (list Q)) (redshifts w_obs : list Q) :
  forall n k X W X' W',
    deshift_loop fl redshifts w_obs (seq k n) (X, W) = Ok (X', W') ->
    length X = k -> length W = k ->
    length X' = (k + n)%nat /\ length W' = (k + n)%nat /\
    (forall i, (i < k)%nat -> nth i X' [] = nth i X [] /\ nth i W' [] = nth i W []) /\
    (forall i, (k <= i < k + n)%nat ->
               deshifted fl redshifts w_obs i (nth i X' []) (nth i W' [])).
Proof.
  induction n as [|n IH]; intros k X W X' W' H LX LW; simpl in H.
  - injection H as <- <-. split; [lia|]. split; [lia|].
    split; [intros i L; split; reflexivity | intros i L; lia].
  - bind_as H acc Hb. apply deshift_body_Ok in Hb.
    destruct Hb as (x & w & -> & D).
    apply IH in H; [|rewrite length_app; simpl; lia|rewrite length_app; simpl; lia].
    destruct H as (LX' & LW' & Pre & Post).
    split; [lia|]. split; [lia|]. split.
    + intros i L. destruct (Pre i) as [PX PW]; [lia|].
      rewrite PX, PW, !app_nth1 by lia. split; reflexivity.
    + intros i L. destruct (Nat.eq_dec i k) as [-> | N].
      * destruct (Pre k) as [PX PW]; [lia|].
        rewrite PX, PW.
        assert (EX : nth k (X ++ [x]) [] = x) by (rewrite <- LX; apply nth_middle).
        assert (EW : nth k (W ++ [w]) [] = w) by (rewrite <- LW; apply nth_middle).
        rewrite EX, EW. exact D.
      * apply Post. lia.
Qed.

Lemma deshift_spec (fl : list (list Q)) (redshifts w_obs : list Q)
  (X W : list (list Q)) :
  deshift_and_stack fl redshifts w_obs = Ok (X, W) ->
  length X = length fl /\ length W = length fl /\
  forall i, (i < length fl)%nat ->
            deshifted fl redshifts w_obs i (nth i X []) (nth i W []).
Proof.
  unfold deshift_and_stack. intros H.
  apply deshift_loop_Ok in H; try reflexivity.
  destruct H as (LX & LW & _ & Post).
  repeat split; try assumption. intros i L. apply Post. lia.
Qed.

Lemma Forall2_from_nth {A B : Type} (R : A -> B -> Prop) (da : A) (db : B) :
  forall (l1 : list A) (l2 : list B),
    length l1 = length l2 ->
    (forall i, (i < length l1)%nat -> R (nth i l1 da) (nth i l2 db)) ->
    Forall2 R l1 l2.
Proof.
  induction l1 as [|a l1 IH]; intros [|b l2] L H; simpl in L; try discriminate;
    constructor.
  - apply (H 0%nat). simpl. lia.
  - apply IH; [lia|]. intros i Li. apply (H (S i)). simpl. lia.
Qed.

Lemma getitem_is_nth {A : Type} (l : list A) (i : nat) (a d : A) :
  getitem l (Z.of_nat i) = Ok a -> (i < length l)%nat /\ nth i l d = a.
Proof.
  intros H. apply (getitem_nonneg _ _ _ d) in H; [|lia].
  rewrite Nat2Z.id in H. exact H.
Qed.

(** The deshifter returns one flux array and one rest-frame grid for every
    row of [fl]; every grid has the length of [w_obs], and when the rows of
    [fl] have that length too, flux and grid of each object are shaped
    alike, which is what [add_noise] needs. *)
Theorem deshift_shapes (fl : list (list Q)) (redshifts w_obs : list Q)
  (X W : list (list Q)) :
  deshift_and_stack fl redshifts w_obs = Ok (X, W) ->
  length X = length fl /\ length W = length fl /\
  Forall (fun w => length w = length w_obs) W /\
  (Forall (fun f => length f = length w_obs) fl -> Forall2 Noise.same_shape X W).
Proof.
  intros H. apply deshift_spec in H. destruct H as (LX & LW & D).
  split; [exact LX|]. split; [exact LW|]. split.
  - apply Forall_nth. intros i d Li. rewrite (nth_indep _ d []) by exact Li.
    destruct (D i) as (z & f & m & _ & _ & _ & _ & _ & -> & _); [lia|].
    apply length_map.
  - intros Rows.
    apply (Forall2_from_nth _ [] []); [lia|].
    intros i Li.
    destruct (D i) as (z & f & m & _ & _ & Gf & _ & _ & -> & Hx); [lia|].
    apply (getitem_is_nth _ _ _ []) in Gf. destruct Gf as [Lf <-].
    rewrite Forall_forall in Rows.
    assert (Lr : length (nth i fl []) = length w_obs)
      by (apply Rows, nth_In; exact Lf).
    apply broadcast2_same_length in Hx; [|rewrite !length_map; exact Lr].
    red. rewrite Hx, zip_with_length; rewrite !length_map; [exact Lr | exact Lr].
Qed.

Lemma deshift_shapes_witness :
  exists X W,
    deshift_and_stack [[2; 4; 6]; [1; 1; 3]] [1; 3] [10; 20; 40] = Ok (X, W) /\
    length X = 2%nat /\ length W = 2%nat /\
    Forall (fun w => length w = 3%nat) W /\
    (Forall (fun f => length f = 3%nat) [[2; 4; 6]; [1; 1; 3]] ->
     Forall2 Noise.same_shape X W).
Proof.
  eexists _, _.
  match goal with |- ?run /\ _ => assert (H : run) by (vm_compute; reflexivity) end.
  split; [exact H|].
  exact (deshift_shapes _ _ _ _ _ H).
Defined.

(** ** The renormalizer: what a returned pair was computed from *)

Lemma renormalize_Ok (w_scale : list Q) (spectra_for_norm : option (list Q))
  (waves_i fl_1 iv_1 normed normed_iv : list Q) :
  renormalize w_scale spectra_for_norm waves_i fl_1 iv_1 = Ok (normed, normed_iv) ->
  exists norm_val spec_val scale,
    norm_val_of w_scale spectra_for_norm waves_i = Ok norm_val /\
    spec_val_of fl_1 = Ok spec_val /\
    scale_of norm_val spec_val = Ok scale /\
    ~ scale ^ 2 == 0 /\
    normed = map (fun x => x * scale) fl_1 /\
    normed_iv = map (fun x => x / scale ^ 2) iv_1.
Proof.
  unfold renormalize. intros H.
  bind_as H norm_val Hn. bind_as H spec_val Hs. bind_as H scale Hc.
  destruct (Qeq_bool (scale ^ 2) 0) eqn:E; [discriminate H|].
  injection H as <- <-.
  exists norm_val, spec_val, scale. repeat split; try assumption.
  intros Z0. apply Qeq_bool_iff in Z0. congruence.
Qed.

(** ** The batch driver and the output matrices *)

Import Script.

Lemma rebin_call_shape (w_in w_out fl : list Q) (iv : ndarray) (fl_idx : Z)
  (t : pytuple) :
  fst (rebin_call w_in w_out fl iv fl_idx) = Ok t ->
  t = [None; None] \/
  exists fl_out iv_out mask,
    t = [Some (FloatArr fl_out); Some (FloatArr iv_out); Some (BoolArr mask)] /\
    length fl_out = length w_out /\
    length iv_out = length w_out /\
    length mask = length w_out.
Proof.
  unfold rebin_call.
  destruct (rebin_to_common _ _ _ _ _ _) as [r s'] eqn:E. simpl. intros ->.
  apply rebin_to_common_Ok in E.
  destruct E as [[-> _] | (f & fl_out & vl & vh & Hov & Hs & Hacc & Hfin)];
    [left; reflexivity|right].
  apply finish_Ok in Hfin.
  destruct Hfin as (var_out & iv_masked & Ln & Hv & Hm & ->).
  pose proof (accumulate_lengths _ _ _ _ _ _ _ _ Hacc Hv) as Lv.
  assert (Lmask : length (binary_erosion (map nonzero fl_out)) = length fl_out)
    by (rewrite binary_erosion_length, length_map; reflexivity).
  apply broadcast2_same_length in Hm;
    [|unfold invert_back; rewrite length_map; lia].
  simpl in Ln.
  exists fl_out, iv_masked, (binary_erosion (map nonzero fl_out)).
  split; [reflexivity|]. split; [exact Ln|]. split; [|lia].
  subst iv_masked. rewrite zip_with_length;
    unfold invert_back; rewrite length_map; lia.
Qed.

Section DriverProperties.

Variable np_log10 : Q -> Q.

(** What one turn of the loop of [rebin_all] appends. *)
Lemma rebin_all_body_Ok (fl : list (list Q)) (iv : list ndarray)
  (waves : list (list Q)) (w_rest w_scale : list Q)
  (spectra_for_norm : option (list Q)) (renorm add_noise : bool) (i : nat)
  (fr ir : list (list Q)) (ms : list ndarray) (acc' : rebinned) :
  rebin_all_body np_log10 fl iv waves w_rest w_scale spectra_for_norm
                 renorm add_noise i (fr, ir, ms) = Ok acc' ->
  exists x v m,
    acc' = (fr ++ [x], ir ++ [v], ms ++ [BoolArr m]) /\
    length x = length w_rest /\ length v = length w_rest /\
    length m = length w_rest /\
    (add_noise = false -> v = map b2q m).
Proof.
  unfold rebin_all_body. intros H.
  bind_as H waves_i Gw. bind_as H fl_i Gf. bind_as H iv_i Gi. bind_as H t Ht.
  apply rebin_call_shape in Ht. rewrite length_map in Ht.
  destruct Ht as [-> | (fo & io & m & -> & Lf & Li & Lm)]; [discriminate H|].
  cbn [as_float] in H.
  assert (R : exists normed normed_iv,
             (if renorm
              then iv_1 <- float_of (Some (FloatArr io)) ;;
                   renormalize w_scale spectra_for_norm waves_i fo iv_1
              else iv_1 <- float_of (Some (FloatArr io)) ;; Ok (fo, iv_1))
             = Ok (normed, normed_iv) /\
             length normed = length w_rest /\ length normed_iv = length w_rest /\
             (if add_noise
              then Ok (fr ++ [normed], ir ++ [normed_iv], ms ++ [BoolArr m])
              else Ok (fr ++ [normed], ir ++ [as_float (BoolArr m)], ms ++ [BoolArr m]))
             = Ok acc').
  { bind_as H r Hr. destruct r as [normed normed_iv]. cbn [bind] in H.
    exists normed, normed_iv. split; [exact Hr|].
    destruct renorm; cbn [float_of as_float bind] in Hr.
    - apply renormalize_Ok in Hr.
      destruct Hr as (nv & sv & sc & _ & _ & _ & _ & -> & ->).
      rewrite !length_map. repeat split; assumption.
    - injection Hr as <- <-. repeat split; assumption. }
  destruct R as (normed & normed_iv & _ & Ln & Lv & Hacc).
  destruct add_noise; injection Hacc as <-.
  - exists normed, normed_iv, m. repeat split; try assumption. discriminate.
  - exists normed, (map b2q m), m. repeat split; try assumption.
    rewrite length_map. exact Lm.
Qed.

Lemma rebin_all_loop_Ok (fl : list (list Q)) (iv : list ndarray)
  (waves : list (list Q)) (w_rest w_scale : list Q)
  (spectra_for_norm : option (list Q)) (renorm add_noise : bool) :
  forall range fr ir ms fr' ir' ms',
    rebin_all_loop np_log10 fl iv waves w_rest w_scale spectra_for_norm
                   renorm add_noise range (fr, ir, ms) = Ok (fr', ir', ms') ->
    length fr = length ir -> length fr = length ms ->
    grid_shaped w_rest add_noise fr ir ms ->
    length fr' = (length fr + length range)%nat /\
    length ir' = length fr' /\ length ms' = length fr' /\
    grid_shaped w_rest add_noise fr' ir' ms'.
Proof.
  induction range as [|i range IH]; intros fr ir ms fr' ir' ms' H L1 L2 G;
    simpl in H.
  - injection H as <- <- <-.
    split; [simpl; lia|]. split; [lia|]. split; [lia | exact G].
  - bind_as H acc Hb. apply rebin_all_body_Ok in Hb.
    destruct Hb as (x & v & m & -> & Lx & Lv & Lm & Hoff).
    apply IH in H.
    + destruct H as (Lf & Li & Lms & G').
      rewrite length_app in Lf. simpl in *.
      split; [lia|]. split; [lia|]. split; [lia | exact G'].
    + rewrite !length_app. simpl. lia.
    + rewrite !length_app. simpl. lia.
    + destruct G as (Gf & Gi & Gm & Goff).
      repeat split.
      * apply Forall_app. split; [exact Gf | repeat constructor; exact Lx].
      * apply Forall_app. split; [exact Gi | repeat constructor; exact Lv].
      * apply Forall_app. split; [exact Gm|].
        repeat constructor. exists m. split; [reflexivity | exact Lm].
      * intros Off. rewrite map_app, (Goff Off), (Hoff Off). reflexivity.
Qed.

(** Whenever [rebin_all] returns, it returns one flux, one inverse variance
    and one mask for every object, none is skipped, each array has one
    entry for every bin of [w_rest], and with [add_noise] off every inverse
    variance is the mask read as floats. *)
Theorem rebin_all_one_per_object (fl : list (list Q)) (iv : list ndarray)
  (waves : list (list Q)) (w_rest w_scale : list Q)
  (spectra_for_norm : option (list Q)) (renorm add_noise : bool)
  (fl_rebinned iv_rebinned : list (list Q)) (masks : list ndarray) :
  rebin_all np_log10 fl iv waves w_rest w_scale spectra_for_norm renorm add_noise
  = Ok (fl_rebinned, iv_rebinned, masks) ->
  length fl_rebinned = length fl /\
  length iv_rebinned = length fl /\
  length masks = length fl /\
  Forall (fun x => length x = length w_rest) fl_rebinned /\
  Forall (fun v => length v = length w_rest) iv_rebinned /\
  Forall (fun m => exists bs, m = BoolArr bs /\ length bs = length w_rest) masks /\
  (add_noise = false -> iv_rebinned = map as_float masks).
Proof.
  unfold rebin_all. intros H.
  apply rebin_all_loop_Ok in H; try reflexivity.
  - destruct H as (Lf & Li & Lm & G1 & G2 & G3 & G4).
    rewrite length_seq in Lf. simpl in Lf.
    repeat split; try assumption; lia.
  - repeat split; constructor.
Qed.

Lemma vstack_T_Ok (rows : list (list Q)) (n : nat) :
  rows <> [] -> Forall (fun r => length r = n) rows ->
  exists M, vstack_T rows = Ok M /\ length M = n /\
            Forall (fun col => length col = length rows) M.
Proof.
  intros N F. destruct rows as [|r rest]; [contradiction|].
  inversion F as [|? ? Lr Frest]; subst.
  unfold vstack_T.
  replace (forallb (fun r' => (length r' =? length r)%nat) rest) with true.
  - eexists. split; [reflexivity|].
    split; [rewrite length_map; apply length_seq|].
    apply Forall_map. apply Forall_forall. intros k _. apply length_map.
  - symmetry. apply forallb_forall. intros r' I. apply Nat.eqb_eq.
    rewrite Forall_forall in Frest. apply Frest. exact I.
Qed.

(** The output of the driver can always be stacked: when [rebin_all]
    returns for at least one object, [np.vstack(...).T] of the fluxes and of
    the inverse variances raises nothing and gives matrices with one row
    for every bin of [w_rest] and one column for every object. *)
Theorem rebinned_output_stacks (fl : list (list Q)) (iv : list ndarray)
  (waves : list (list Q)) (w_rest w_scale : list Q)
  (spectra_for_norm : option (list Q)) (renorm add_noise : bool)
  (fl_rebinned iv_rebinned : list (list Q)) (masks : list ndarray) :
  rebin_all np_log10 fl iv waves w_rest w_scale spectra_for_norm renorm add_noise
  = Ok (fl_rebinned, iv_rebinned, masks) ->
  fl <> [] ->
  exists X V,
    vstack_T fl_rebinned = Ok X /\ vstack_T iv_rebinned = Ok V /\
    length X = length w_rest /\ length V = length w_rest /\
    Forall (fun row => length row = length fl) X /\
    Forall (fun row => length row = length fl) V.
Proof.
  unfold rebin_all. intros H N.
  apply rebin_all_loop_Ok in H; try reflexivity;
    [|repeat split; constructor].
  destruct H as (Lf & Li & Lm & G1 & G2 & _).
  rewrite length_seq in Lf. simpl in Lf.
  assert (Nf : fl_rebinned <> []).
  { intros E. subst. destruct fl; [contradiction | discriminate Lf]. }
  assert (Ni : iv_rebinned <> []).
  { intros E. subst. simpl in Li. destruct fl; [contradiction|].
    rewrite <- Li in Lf. discriminate Lf. }
  destruct (vstack_T_Ok _ _ Nf G1) as (X & HX & LX & CX).
  destruct (vstack_T_Ok _ _ Ni G2) as (V & HV & LV & CV).
  exists X, V. repeat split; try assumption.
  - rewrite <- Lf. exact CX.
  - rewrite <- Lf, <- Li. exact CV.
Qed.

End DriverProperties.

Lemma rebin_all_one_per_object_witness :
  exists fl_rebinned iv_rebinned masks,
    rebin_all (fun x => x) [[1; 1; 1]; [2; 2; 2]]
              [BoolArr [true; true; true]; BoolArr [true; true; true]]
              [[3 # 2; 5 # 2; 7 # 2]; [1 # 2; 3 # 2; 5 # 2]]
              [0; 1; 2; 3; 4; 5] [] None false false
    = Ok (fl_rebinned, iv_rebinned, masks) /\
    length fl_rebinned = 2%nat /\ length iv_rebinned = 2%nat /\
    length masks = 2%nat /\
    Forall (fun x => length x = 6%nat) fl_rebinned /\
    Forall (fun v => length v = 6%nat) iv_rebinned /\
    Forall (fun m => exists bs, m = BoolArr bs /\ length bs = 6%nat) masks /\
    (false = false -> iv_rebinned = map as_float masks).
Proof.
  eexists _, _, _.
  match goal with |- ?run /\ _ => assert (H : run) by (vm_compute; reflexivity) end.
  split; [exact H|].
  exact (rebin_all_one_per_object _ _ _ _ _ _ _ _ _ _ _ _ H).
Defined.

Lemma rebinned_output_stacks_witness :
  exists fl_rebinned iv_rebinned masks X V,
    rebin_all (fun x => x) [[1; 1; 1]; [2; 2; 2]]
              [BoolArr [true; true; true]; BoolArr [true; true; true]]
              [[3 # 2; 5 # 2; 7 # 2]; [1 # 2; 3 # 2; 5 # 2]]
              [0; 1; 2; 3; 4; 5] [] None false false
    = Ok (fl_rebinned, iv_rebinned, masks) /\
    vstack_T fl_rebinned = Ok X /\ vstack_T iv_rebinned = Ok V /\
    length X = 6%nat /\ length V = 6%nat /\
    Forall (fun row => length row = 2%nat) X /\
    Forall (fun row => length row = 2%nat) V.
Proof.
  eexists _, _, _.
  match goal with
  | |- exists X V, ?run /\ _ => assert (H : run) by (vm_compute; reflexivity)
  end.
  destruct (rebinned_output_stacks _ _ _ _ _ _ _ _ _ _ _ _ H)
    as (X & V & H1 & H2 & H3 & H4 & H5 & H6); [discriminate|].
  exists X, V. repeat split; assumption.
Defined.

(** ** The script: the common grid *)

Lemma pyslice_length {A : Type} (a : list A) (lo hi : Z) :
  Z.of_nat (length (pyslice a lo hi))
  = Z.max 0 (Z.min (slice_index (Z.of_nat (length a)) hi
                    - slice_index (Z.of_nat (length a)) lo)
                   (Z.of_nat (length a)
                    - Z.max 0 (slice_index (Z.of_nat (length a)) lo))).
Proof.
  unfold pyslice. rewrite length_firstn, length_skipn. lia.
Qed.

Lemma pyslice_nth {A : Type} (a : list A) (lo hi : Z) (k : nat) (d : A) :
  (k < length (pyslice a lo hi))%nat ->
  nth k (pyslice a lo hi) d
  = nth (Z.to_nat (slice_index (Z.of_nat (length a)) lo) + k) a d.
Proof.
  unfold pyslice. rewrite length_firstn. intros L.
  rewrite nth_firstn.
  replace (k <? _)%nat with true by (symmetry; apply Nat.ltb_lt; lia).
  apply nth_skipn.
Qed.

(** The common grid has exactly [nbins_final] bins whenever the full grid
    has at least [nbins_final + 2]: bin [k] of [w_rest] is bin
    [trunc + k] of [w_scale], with [trunc = (nbins - nbins_final) // 2]. *)
Theorem common_grid_has_nbins_final {A : Type} (w_scale : list A) :
  (nbins_final + 2 <= Z.of_nat (length w_scale))%Z ->
  Z.of_nat (length (common_grid w_scale)) = nbins_final /\
  forall k d, (Z.of_nat k < nbins_final)%Z ->
    nth k (common_grid w_scale) d
    = nth (Z.to_nat ((Z.of_nat (length w_scale) - nbins_final) / 2) + k) w_scale d.
Proof.
  unfold nbins_final. intros H.
  set (n := Z.of_nat (length w_scale)) in *.
  set (trunc := ((n - 11400) / 2)%Z).
  assert (T : (1 <= trunc /\ 2 * trunc <= n - 11400 <= 2 * trunc + 1)%Z).
  { unfold trunc.
    pose proof (Z.div_mod (n - 11400) 2 ltac:(lia)).
    pose proof (Z.mod_pos_bound (n - 11400) 2 ltac:(lia)). lia. }
  assert (S1 : slice_index n trunc = trunc)
    by (unfold slice_index; destruct (Z.ltb_spec trunc 0); lia).
  assert (S2 : slice_index n (- trunc) = (n - trunc)%Z)
    by (unfold slice_index; destruct (Z.ltb_spec (- trunc) 0); lia).
  assert (L1 : Z.of_nat (length (pyslice w_scale trunc (- trunc)))
               = (n - 2 * trunc)%Z).
  { rewrite pyslice_length. fold n. rewrite S1, S2. lia. }
  assert (N1 : forall k d, (Z.of_nat k < n - 2 * trunc)%Z ->
               nth k (pyslice w_scale trunc (- trunc)) d
               = nth (Z.to_nat trunc + k) w_scale d).
  { intros k d Lk. rewrite pyslice_nth by lia. fold n. rewrite S1. reflexivity. }
  unfold common_grid. fold n. unfold nbins_final. fold trunc.
  destruct (Z.eqb_spec (Z.of_nat (length (pyslice w_scale trunc (- trunc)))) 11401)
    as [E|E].
  - set (w_rest := pyslice w_scale trunc (- trunc)) in *.
    assert (S3 : slice_index 11401 0 = 0%Z) by reflexivity.
    assert (S4 : slice_index 11401 (-1) = 11400%Z) by reflexivity.
    assert (L2 : Z.of_nat (length (pyslice w_rest 0 (-1))) = 11400%Z).
    { rewrite pyslice_length, E, S3, S4. reflexivity. }
    split; [exact L2|].
    intros k d Lk. rewrite pyslice_nth by lia.
    rewrite E, S3. simpl Z.to_nat. simpl Nat.add.
    apply N1. lia.
  - split; [lia|]. intros k d Lk. apply N1. lia.
Qed.

Lemma common_grid_has_nbins_final_witness :
  Z.of_nat (length (common_grid (repeat 0%Z (Z.to_nat 11427)))) = nbins_final /\
  forall k d, (Z.of_nat k < nbins_final)%Z ->
    nth k (common_grid (repeat 0%Z (Z.to_nat 11427))) d
    = nth (Z.to_nat ((Z.of_nat (length (repeat 0%Z (Z.to_nat 11427))) - nbins_final) / 2)
           + k)
          (repeat 0%Z (Z.to_nat 11427)) d.
Proof.
  apply (common_grid_has_nbins_final (repeat 0%Z (Z.to_nat 11427))).
  rewrite repeat_length. unfold nbins_final. lia.
Defined.

(** Edge: a full grid of exactly [nbins_final] or [nbins_final + 1] bins
    gives an empty common grid: [trunc] is 0 and [w_scale[0:-0]] is
    [w_scale[0:0]]. *)
Theorem common_grid_empty {A : Type} (w_scale : list A) :
  (nbins_final <= Z.of_nat (length w_scale) <= nbins_final + 1)%Z ->
  common_grid w_scale = [].
Proof.
  unfold nbins_final. intros H.
  assert (T : ((Z.of_nat (length w_scale) - 11400) / 2 = 0)%Z).
  { apply Z.div_small. lia. }
  unfold common_grid, nbins_final. rewrite T.
  assert (E : pyslice w_scale 0 (- 0) = []).
  { unfold pyslice, slice_index. simpl Z.opp. cbn [Z.ltb Z.compare].
    replace (Z.min 0 (Z.of_nat (length w_scale)) - Z.min 0 (Z.of_nat (length w_scale)))%Z
      with 0%Z by lia.
    reflexivity. }
  rewrite E. reflexivity.
Qed.

Lemma common_grid_empty_witness :
  common_grid (repeat 0%Z (Z.to_nat 11401)) = [].
Proof.
  apply common_grid_empty. rewrite repeat_length. unfold nbins_final. lia.
Defined.
